(** * The pin manager of js-ipfs

    A shallow embedding of [src/core/components/pin/pin-manager.js]: the
    two in-memory pin sets, the link cache, the flush and load protocols,
    the membership query and the pin-type validation, followed by the
    properties established about them.

    The callback-passing code is written here in a state-and-outcome
    monad.  The collaborators the file requires but does not define (the
    CID library, the DAG and its codec, the repository datastore, the
    pin-set codec) are an interface, [Collaborators], over an abstract
    world; every asynchronous call is one atomic step on that world. *)

From Stdlib Require Import Ascii.
From stdpp Require Import base strings list gmap.

Local Open Scope string_scope.
Local Open Scope list_scope.

(** ** JavaScript values, errors and outcomes *)

(** [Buffer]: a Node.js byte buffer. *)
Definition Buffer : Type := list Byte.byte.

(** An [Error] object: its [message] and the [code] that [err-code]
    attaches to it. *)
Record JsError := mkError { message : string; code : option string }.

Definition Error (msg : string) : JsError := mkError msg None.
(** [errCode(err, code)] *)
Definition errCode (err : JsError) (c : string) : JsError :=
  mkError (message err) (Some c).

(** The result of a synchronous call: a value, or an exception. *)
Inductive Sync (A : Type) : Type :=
| Returns (a : A)
| Throws (e : JsError).
Arguments Returns {A} a.
Arguments Throws {A} e.

(** The outcome of a callback-style call: [callback(null, a)],
    [callback(err)], or an exception thrown before any callback ran. *)
Inductive Outcome (A : Type) : Type :=
| Ok (a : A)
| Err (e : JsError)
| Thrown (e : JsError).
Arguments Ok {A} a.
Arguments Err {A} e.
Arguments Thrown {A} e.

Definition failed {A} (o : Outcome A) : Prop :=
  match o with Ok _ => False | _ => True end.

(** The values a caller can hand to [checkPinType].  A number is kept as
    the text its string conversion yields; an object as the outcome of
    its string conversion, which runs the object's own [toString] and
    may throw; a symbol has no string conversion. *)
Inductive JsValue : Type :=
| JsUndefined
| JsNull
| JsBool (b : bool)
| JsNumber (text : string)
| JsString (s : string)
| JsSymbol (description : string)
| JsObject (conversion : Sync string).

(** [typeof v] *)
Definition typeof (v : JsValue) : string :=
  match v with
  | JsUndefined => "undefined"
  | JsNull => "object"
  | JsBool _ => "boolean"
  | JsNumber _ => "number"
  | JsString _ => "string"
  | JsSymbol _ => "symbol"
  | JsObject _ => "object"
  end.

(** The string conversion a template literal [`${v}`] applies. *)
Definition ToString (v : JsValue) : Sync string :=
  match v with
  | JsUndefined => Returns "undefined"
  | JsNull => Returns "null"
  | JsBool true => Returns "true"
  | JsBool false => Returns "false"
  | JsNumber text => Returns text
  | JsString s => Returns s
  | JsSymbol _ =>
      Throws (Error "Cannot convert a Symbol value to a string")
  | JsObject conversion => conversion
  end.

(** ** Pin types and their validation *)

Module PinTypes.
Definition direct : string := "direct".
Definition recursive : string := "recursive".
Definition indirect : string := "indirect".
Definition all : string := "all".
(** [Object.keys(PinTypes)] *)
Definition keys : list string := [direct; recursive; indirect; all].
End PinTypes.

(** [Array.prototype.includes] on an array of strings. *)
Definition includes (xs : list string) (v : JsValue) : bool :=
  match v with
  | JsString s => bool_decide (s ∈ xs)
  | _ => false
  end.

Definition invalidPinTypeErr (type : JsValue) : Sync JsError :=
  match ToString type with
  | Returns shown =>
      let errMsg := "Invalid type '" +:+ shown +:+
                    "', must be one of {direct, indirect, recursive, all}" in
      Returns (errCode (Error errMsg) "ERR_INVALID_PIN_TYPE")
  | Throws e => Throws e
  end.

(** [checkPinType]: [Returns None] is the [undefined] the function
    returns for a valid type, [Returns (Some err)] the error it returns
    for an invalid one. *)
Definition checkPinType (type : JsValue) : Sync (option JsError) :=
  if negb (String.eqb (typeof type) "string")
     || negb (includes PinTypes.keys type)
  then match invalidPinTypeErr type with
       | Returns err => Returns (Some err)
       | Throws e => Throws e
       end
  else Returns None.

(** ** The in-memory pin sets *)

(** A JavaScript [Set] of strings: its members in insertion order,
    without repetition. *)
Module JsSet.
Definition t : Type := list string.
Definition empty : t := [].
Definition has (k : string) (s : t) : bool := bool_decide (k ∈ s).
Definition add (k : string) (s : t) : t := if has k s then s else s ++ [k].
Definition delete (k : string) (s : t) : t := filter (λ x, x ≠ k) s.
(** [for (const k of ks) s.add(k)] *)
Definition addAll (ks : list string) (s : t) : t :=
  foldl (λ acc k, add k acc) s ks.
(** [new Set(ks)] *)
Definition ofList (ks : list string) : t := addAll ks empty.
(** [Array.from(s)] *)
Definition toList (s : t) : list string := s.
End JsSet.

(** ** The collaborators *)

(** What [new CID(x)] can be given: a string, a buffer or a CID. *)
Inductive CidSource (CID : Type) : Type :=
| FromString (s : string)
| FromBuffer (b : Buffer)
| FromCid (c : CID).
Arguments FromString {CID} s.
Arguments FromBuffer {CID} b.
Arguments FromCid {CID} c.

(** [new Key('/local/pins')] *)
Definition PIN_DS_KEY : string := "/local/pins".

(** The modules this file requires: [cids], [ipld-dag-pb], the [dag]
    component, [./pin-set] and the repository with its datastore.  A call
    that takes a callback is a step on the world with an [Outcome]; a
    plain call is a function with a [Sync] result.  For [util_cid], which
    returns a promise, [Throws] stands for its rejection.  The options
    objects the source passes ([{ preload: false }], the fixed
    [{ version: 0, format, hashAlg, preload }] of both [dag.put] calls,
    [{ cidVersion: 0 }]) are constants and are part of these functions.
    [datastore_open] and [repo_open] call back with one value, as the
    step that follows them in [load] expects. *)
Class Collaborators (World Node CID Link : Type) : Type := {
  CID_new : CidSource CID → Sync CID;
  CID_toBaseEncodedString : CID → string;
  CID_toString : CID → string;
  CID_buffer : CID → Buffer;
  DAGNode_create : Buffer → list Link → Sync Node;
  DAGNode_size : Node → N;
  DAGNode_toString : Node → string;
  DAGLink_new : string → N → CID → Sync Link;
  util_serialize : Node → Sync Buffer;
  util_cid : Buffer → Sync CID;
  dag_put : Node → World → Outcome CID * World;
  dag_get : CID → World → Outcome Node * World;
  dag_getRecursive : Buffer → World → Outcome (list Node) * World;
  pinset_storeSet :
    list Buffer → string → World → Outcome (Node * CID) * World;
  pinset_loadSet : Node → string → World → Outcome (list Buffer) * World;
  pinset_hasDescendant : Node → string → World → Outcome bool * World;
  pinset_getInternalCids : Node → World → Outcome (list CID) * World;
  repo_closed : World → bool;
  repo_open : World → Outcome unit * World;
  datastore_open : World → Outcome unit * World;
  datastore_has : string → World → Outcome bool * World;
  datastore_get : string → World → Outcome Buffer * World;
  datastore_put : string → Buffer → World → Outcome unit * World
}.

Inductive LockMode : Type := ReadLock | WriteLock.

(** What a run leaves behind besides its result: the lock being taken
    and given back, and the lines passed to [this.log]. *)
Inductive Event : Type :=
| Acquire (m : LockMode)
| Release (m : LockMode)
| Log (msg : string).

(** Which of the two sets a call to [_addPins] was handed. *)
Inductive PinSetRef : Type := TheDirectPins | TheRecursivePins.

(** Why [isPinnedWithType] found an identifier pinned: a pin type, or on
    the indirect path the CID of the recursive pin it is under. *)
Inductive Reason (CID : Type) : Type :=
| ByType (t : string)
| ByRoot (c : CID).
Arguments ByType {CID} t.
Arguments ByRoot {CID} c.

Record PinStatus (CID : Type) : Type := mkStatus {
  key : string;
  pinned : bool;
  reason : option (Reason CID)
}.
Arguments mkStatus {CID} key pinned reason.
Arguments key {CID} p.
Arguments pinned {CID} p.
Arguments reason {CID} p.

(** The root node [_flushPins] hands back, with the [multihash] it sets
    on it. *)
Record Root (Node : Type) : Type := mkRoot {
  node : Node;
  multihash : Buffer
}.
Arguments mkRoot {Node} node multihash.
Arguments node {Node} r.
Arguments multihash {Node} r.

(** What [_addPins] hands to its callback: the empty array when nothing
    was new, the flushed root otherwise. *)
Inductive Added (Node : Type) : Type :=
| NothingNew (keys : list string)
| Flushed (root : Root Node).
Arguments NothingNew {Node} keys.
Arguments Flushed {Node} root.

(** The fields of a [PinManager] that change. *)
Record PinManager (Link : Type) : Type := mkPinManager {
  directPins : JsSet.t;
  recursivePins : JsSet.t;
  _linkCache : gmap string Link
}.
Arguments mkPinManager {Link} directPins recursivePins _linkCache.
Arguments directPins {Link} p.
Arguments recursivePins {Link} p.
Arguments _linkCache {Link} p.

(** The manager, the world of its collaborators, and the events so far
    (latest last). *)
Record State (World Link : Type) : Type := mkState {
  this : PinManager Link;
  world : World;
  trace : list Event
}.
Arguments mkState {World Link} this world trace.
Arguments this {World Link} s.
Arguments world {World Link} s.
Arguments trace {World Link} s.

(** [new PinManager(...)] *)
Definition constructor {Link} : PinManager Link :=
  mkPinManager JsSet.empty JsSet.empty ∅.

(** ** The monad of callback-style code *)

Section Async.
Context {World Link : Type}.

Definition Async (A : Type) : Type :=
  State World Link → Outcome A * State World Link.

#[export] Instance Async_ret : MRet Async := λ A a s, (Ok a, s).

#[export] Instance Async_bind : MBind Async := λ A B k m s,
  match m s with
  | (Ok a, s1) => k a s1
  | (Err e, s1) => (Err e, s1)
  | (Thrown e, s1) => (Thrown e, s1)
  end.

(** [cb(err)] *)
Definition fail {A} (e : JsError) : Async A := λ s, (Err e, s).

(** A synchronous call made in the middle of callback code: what it
    throws is nobody's [err]. *)
Definition sync {A} (r : Sync A) : Async A := λ s,
  match r with
  | Returns a => (Ok a, s)
  | Throws e => (Thrown e, s)
  end.

(** [try { ... } catch (err) { cb(err) }], and a promise's
    [.then(v => cb(null, v), cb)]. *)
Definition caught {A} (r : Sync A) : Async A := λ s,
  match r with
  | Returns a => (Ok a, s)
  | Throws e => (Err e, s)
  end.

Definition getThis : Async (PinManager Link) := λ s, (Ok (this s), s).

Definition setThis (p : PinManager Link) : Async unit := λ s,
  (Ok tt, mkState p (world s) (trace s)).

(** A read of the world that is not a call, such as [repo.closed]. *)
Definition observe {A} (f : World → A) : Async A := λ s,
  (Ok (f (world s)), s).

(** A collaborator's call. *)
Definition call {A} (f : World → Outcome A * World) : Async A := λ s,
  let '(r, w) := f (world s) in (r, mkState (this s) w (trace s)).

Definition emit (ev : Event) : Async unit := λ s,
  (Ok tt, mkState (this s) (world s) (trace s ++ [ev])).

(** [this.log(msg)] *)
Definition log (msg : string) : Async unit := emit (Log msg).

(** The final callback of [series], [waterfall] or a collaborator,
    which looks at [err] itself. *)
Definition andFinally {A B}
    (m : Async A) (k : JsError + A → Async B) : Async B := λ s,
  match m s with
  | (Ok a, s1) => k (inr a) s1
  | (Err e, s1) => k (inl e) s1
  | (Thrown e, s1) => (Thrown e, s1)
  end.

(** Two tasks of [async/parallel], run to completion in the order they
    are listed: a task that fails through its callback does not stop
    the other one, and the first failure is the one reported. *)
Definition par {A B} (t1 : Async A) (t2 : Async B) : Async (A * B) := λ s,
  match t1 s with
  | (Ok a, s1) =>
      match t2 s1 with
      | (Ok b, s2) => (Ok (a, b), s2)
      | (Err e, s2) => (Err e, s2)
      | (Thrown e, s2) => (Thrown e, s2)
      end
  | (Err e, s1) =>
      match t2 s1 with
      | (Thrown e', s2) => (Thrown e', s2)
      | (_, s2) => (Err e, s2)
      end
  | (Thrown e, s1) => (Thrown e, s1)
  end.

(** [async/map] and [async/eachLimit] with an accumulator, one element
    after the other; the first failure ends the iteration. *)
Fixpoint mapAsync {A B} (f : A → Async B) (xs : list A) : Async (list B) :=
  match xs with
  | [] => mret []
  | x :: rest => y ← f x; ys ← mapAsync f rest; mret (y :: ys)
  end.

Fixpoint eachLimit {A S} (f : A → S → Async S) (xs : list A) (acc : S)
    : Async S :=
  match xs with
  | [] => mret acc
  | x :: rest => acc' ← f x acc; eachLimit f rest acc'
  end.

(** [async/detectLimit], one element after the other: the first element
    the test accepts, [undefined] when it accepts none.  The source
    starts up to [concurrencyLimit] tests at once, so that with several
    recursive pins a failing test can be reported where this model has
    already found an accepting one; whether some element is accepted,
    when no test fails, does not depend on the order. *)
Fixpoint detectLimit {A} (test : A → Async bool) (xs : list A)
    : Async (option A) :=
  match xs with
  | [] => mret None
  | x :: rest =>
      found ← test x;
      if found : bool then mret (Some x) else detectLimit test rest
  end.

(** Modelled from the spec: the lock of [./lock], which is not among
    the sources.  [readLock(fn, cb)] and [writeLock(fn, cb)] run [fn]
    as one critical section, shared or exclusive, and hand what [fn]
    reports to [cb]; the section ends when [fn] calls back.  The
    section is recorded in the trace, and no state of the lock is kept:
    this is a call that finds the lock free, as a call does that follows
    one that has called back.  What the lock does when [fn] throws is
    not said; here the exception passes on and no release is
    recorded. *)
Definition locked {A} (m : LockMode) (fn : Async A) : Async A := λ s,
  match fn (mkState (this s) (world s) (trace s ++ [Acquire m])) with
  | (Thrown e, s1) => (Thrown e, s1)
  | (r, s1) => (r, mkState (this s1) (world s1) (trace s1 ++ [Release m]))
  end.

Definition readLock {A} : Async A → Async A := locked ReadLock.
Definition writeLock {A} : Async A → Async A := locked WriteLock.
End Async.

(** [xs.map(f)] for an [f] that may throw. *)
Fixpoint mapSync {A B} (f : A → Sync B) (xs : list A) : Sync (list B) :=
  match xs with
  | [] => Returns []
  | x :: rest =>
      match f x with
      | Throws e => Throws e
      | Returns y =>
          match mapSync f rest with
          | Throws e => Throws e
          | Returns ys => Returns (y :: ys)
          end
      end
  end.

(** ** The pin manager *)

Section Manager.
Context {World Node CID Link : Type}.
Context `{C : !Collaborators World Node CID Link}.

Local Abbreviation Async := (@Async World Link).

Definition toB58String (hash : CidSource CID) : Sync string :=
  match CID_new hash with
  | Returns c => Returns (CID_toBaseEncodedString c)
  | Throws e => Throws e
  end.

(** [key => new CID(key).buffer] *)
Definition keyBuffer (k : string) : Sync Buffer :=
  match CID_new (FromString k) with
  | Returns c => Returns (CID_buffer c)
  | Throws e => Throws e
  end.

Definition directKeys (p : PinManager Link) : Sync (list Buffer) :=
  mapSync keyBuffer (JsSet.toList (directPins p)).

Definition recursiveKeys (p : PinManager Link) : Sync (list Buffer) :=
  mapSync keyBuffer (JsSet.toList (recursivePins p)).

Definition setDirectPins (d : JsSet.t) (p : PinManager Link) :=
  mkPinManager d (recursivePins p) (_linkCache p).

Definition setRecursivePins (r : JsSet.t) (p : PinManager Link) :=
  mkPinManager (directPins p) r (_linkCache p).

Definition setLinkCache (c : gmap string Link) (p : PinManager Link) :=
  mkPinManager (directPins p) (recursivePins p) c.

Definition pinSetOf (ref : PinSetRef) (p : PinManager Link) : JsSet.t :=
  match ref with
  | TheDirectPins => directPins p
  | TheRecursivePins => recursivePins p
  end.

Definition setPinSet (ref : PinSetRef) (s : JsSet.t) (p : PinManager Link) :=
  match ref with
  | TheDirectPins => setDirectPins s p
  | TheRecursivePins => setRecursivePins s p
  end.

(** The keys one recursive pin contributes to [getIndirectKeys]: the
    re-derived addresses of the nodes under it, without those that are
    recursive pins themselves. *)
Definition addIndirect (multihash : Buffer) (indirectKeys : JsSet.t)
    : Async JsSet.t :=
  nodes ← call (dag_getRecursive multihash);
  cids ← mapAsync (λ n,
            bytes ← sync (util_serialize n);
            caught (util_cid bytes)) nodes;
  p ← getThis;
  mret (JsSet.addAll
          (filter (λ k, negb (JsSet.has k (recursivePins p)))
                  (map CID_toString cids))
          indirectKeys).

Definition getIndirectKeys : Async (list string) :=
  readLock (
    p ← getThis;
    roots ← sync (recursiveKeys p);
    indirectKeys ← eachLimit addIndirect roots JsSet.empty;
    mret (JsSet.toList indirectKeys)).

(** [_flushPins]: the three tasks of its [parallel], then the rest of
    its [series]. *)
Definition flushDirectLink (dLink : option Link) : Async Link :=
  match dLink with
  | Some l => mret l
  | None =>
      p ← getThis;
      keys ← sync (directKeys p);
      res ← call (pinset_storeSet keys "direct");
      l ← caught (DAGLink_new PinTypes.direct (DAGNode_size res.1) res.2);
      p' ← getThis;
      setThis (setLinkCache (<["direct" := l]> (_linkCache p')) p');;
      mret l
  end.

Definition flushRecursiveLink (rLink : option Link) : Async Link :=
  match rLink with
  | Some l => mret l
  | None =>
      p ← getThis;
      keys ← sync (recursiveKeys p);
      res ← call (pinset_storeSet keys "recursive");
      l ← caught (DAGLink_new PinTypes.recursive (DAGNode_size res.1) res.2);
      p' ← getThis;
      setThis (setLinkCache (<["recursive" := l]> (_linkCache p')) p');;
      mret l
  end.

Definition flushEmptyNode : Async CID :=
  empty ← caught (DAGNode_create [] []);
  call (dag_put empty).

Definition _flushPins : Async (Root Node) :=
  p ← getThis;
  let dLink := _linkCache p !! "direct" in
  let rLink := _linkCache p !! "recursive" in
  links ← par (flushDirectLink dLink)
              (par (flushRecursiveLink rLink) flushEmptyNode);
  let dLink := links.1 in
  let rLink := links.2.1 in
  node ← caught (DAGNode_create [] [dLink; rLink]);
  cid ← call (dag_put node);
  let root := mkRoot node (CID_buffer cid) in
  closed ← observe repo_closed;
  (if closed : bool then call repo_open else mret tt);;
  call (datastore_put PIN_DS_KEY (multihash root));;
  log ("Flushed pins with root: " +:+ DAGNode_toString node);;
  mret root.

Definition _addPins (keys : list string) (pinSet : PinSetRef)
    (pinType : string) : Async (Added Node) :=
  writeLock (
    p ← getThis;
    let keys := filter (λ k, negb (JsSet.has k (pinSetOf pinSet p))) keys in
    match keys with
    | [] => mret (NothingNew [])
    | _ =>
        let p1 := setLinkCache (delete pinType (_linkCache p)) p in
        let p2 := setPinSet pinSet (JsSet.addAll keys (pinSetOf pinSet p1)) p1 in
        setThis p2;;
        root ← _flushPins;
        mret (Flushed root)
    end).

Definition addRecursivePins (keys : list string) : Async (Added Node) :=
  _addPins keys TheRecursivePins "recursive".

Definition addDirectPins (keys : list string) : Async (Added Node) :=
  _addPins keys TheDirectPins "direct".

(** The body of the loop of [rmPins]. *)
Definition rmPin (recursive : bool) (p : PinManager Link) (k : string)
    : PinManager Link :=
  if recursive && JsSet.has k (recursivePins p)
  then setRecursivePins (JsSet.delete k (recursivePins p)) p
  else setDirectPins (JsSet.delete k (directPins p)) p.

Definition rmPins (keys : list string) (recursive : bool)
    : Async (Added Node) :=
  match keys with
  | [] => mret (NothingNew [])
  | _ =>
      writeLock (
        p ← getThis;
        setThis (foldl (rmPin recursive) p keys);;
        root ← _flushPins;
        mret (Flushed root))
  end.

(** The [waterfall] of [load]: the root node the datastore points at. *)
Definition loadRoot : Async Node :=
  closed ← observe repo_closed;
  (if closed : bool then call datastore_open else mret tt);;
  has ← call (datastore_has PIN_DS_KEY);
  (if has : bool then mret tt else fail (Error "No pins to load"));;
  mh ← call (datastore_get PIN_DS_KEY);
  c ← sync (CID_new (FromBuffer mh));
  call (dag_get c).

Definition load : Async unit :=
  writeLock (
    andFinally loadRoot (λ r,
      match r with
      | inl err =>
          if String.eqb (message err) "No pins to load"
          then log "No pins to load"
          else fail err
      | inr pinRoot =>
          keys ← par (call (pinset_loadSet pinRoot PinTypes.recursive))
                     (call (pinset_loadSet pinRoot PinTypes.direct));
          let rKeys := keys.1 in
          let dKeys := keys.2 in
          d ← sync (mapSync (λ b, toB58String (FromBuffer b)) dKeys);
          p ← getThis;
          setThis (setDirectPins (JsSet.ofList d) p);;
          r ← sync (mapSync (λ b, toB58String (FromBuffer b)) rKeys);
          p' ← getThis;
          setThis (setRecursivePins (JsSet.ofList r) p');;
          log "Loaded pins from the datastore"
      end)).

(** The test [isPinnedWithType] runs on each recursive pin. *)
Definition isUnder (key : string) (cid : CID) : Async bool :=
  node ← call (dag_get cid);
  call (pinset_hasDescendant node key).

Definition isPinnedWithType (multihash : CidSource CID) (type : string)
    : Async (PinStatus CID) :=
  key ← sync (toB58String multihash);
  p ← getThis;
  if (String.eqb type PinTypes.recursive || String.eqb type PinTypes.all)
     && JsSet.has key (recursivePins p)
  then mret (mkStatus key true (Some (ByType PinTypes.recursive)))
  else if String.eqb type PinTypes.recursive
  then mret (mkStatus key false None)
  else if (String.eqb type PinTypes.direct || String.eqb type PinTypes.all)
          && JsSet.has key (directPins p)
  then mret (mkStatus key true (Some (ByType PinTypes.direct)))
  else if String.eqb type PinTypes.direct
  then mret (mkStatus key false None)
  else
    readLock (
      p ← getThis;
      buffers ← sync (recursiveKeys p);
      cids ← sync (mapSync (λ b, CID_new (FromBuffer b)) buffers);
      cid ← detectLimit (isUnder key) cids;
      mret (mkStatus key (bool_decide (is_Some cid)) (ByRoot <$> cid))).

Definition getInternalBlocks : Async (list CID) :=
  writeLock (
    andFinally (call (datastore_get PIN_DS_KEY)) (λ r,
      match r with
      | inl err =>
          if bool_decide (code err = Some "ERR_NOT_FOUND")
          then log "No pinned blocks";; mret []
          else fail (Error ("Could not get pin sets root from datastore: "
                            +:+ message err))
      | inr mh =>
          cid ← sync (CID_new (FromBuffer mh));
          andFinally (call (dag_get cid)) (λ r,
            match r with
            | inl err =>
                fail (Error ("Could not get pin sets from store: "
                             +:+ message err))
            | inr obj =>
                andFinally (call (pinset_getInternalCids obj)) (λ r,
                  match r with
                  | inl err =>
                      fail (Error ("Could not get pinner internal cids: "
                                   +:+ message err))
                  | inr cids => mret (cids ++ [cid])
                  end)
            end)
      end)).

End Manager.

(** * An in-memory world

    A small implementation of the collaborators, on which the manager
    can be run.  A CID is the text of a content address together with
    the base it is written in as a string, shown by a one-letter
    prefix: [z], the base of a CID made from a buffer, or [b], another
    one that [new CID] reads as well.  As in [cids], a CID made from a
    string keeps the base of that string, so that its
    [toBaseEncodedString()] is the string it was made from; its buffer
    does not tell the base.  The address of a node is made of its data
    and the addresses it links to; as this is no hash, the block store
    refuses a node the address of which is taken by another node.  The
    pin-set codec stores a set as one node with a link per member.  The
    datastore holds the one root key, and refuses to write when its
    disk is full. *)
Module InMemory.

Inductive Base : Type := BaseZ | BaseB.

Record CID : Type := mkCid { base : Base; content : string }.

(** The CID of a content address, in the base of buffers. *)
Definition ofText (t : string) : CID := mkCid BaseZ t.
Coercion ofText : string >-> CID.

Record Link : Type := mkLink { Name : string; Tsize : N; Hash : CID }.

Record Node : Type := mkNode { Data : Buffer; Links : list Link }.

#[export] Instance Base_eq_dec : EqDecision Base.
Proof. solve_decision. Defined.

#[export] Instance CID_eq_dec : EqDecision CID.
Proof. solve_decision. Defined.

#[export] Instance Link_eq_dec : EqDecision Link.
Proof. solve_decision. Defined.

#[export] Instance byte_eq_dec : EqDecision Byte.byte := Byte.byte_eq_dec.

#[export] Instance Node_eq_dec : EqDecision Node.
Proof. solve_decision. Defined.

Record World : Type := mkWorld {
  blocks : list (string * Node);
  rootKey : option Buffer;
  closed : bool;
  diskFull : bool
}.

Definition text (b : Buffer) : string := String.string_of_list_byte b.
Definition bytes (t : string) : Buffer := String.list_byte_of_string t.

Definition parseCid (src : CidSource CID) : Sync CID :=
  match src with
  | FromString (String "z"%char body) => Returns (mkCid BaseZ body)
  | FromString (String "b"%char body) => Returns (mkCid BaseB body)
  | FromString _ => Throws (Error "Invalid CID")
  | FromBuffer b => Returns (mkCid BaseZ (text b))
  | FromCid c => Returns c
  end.

Definition toBaseEncodedString (c : CID) : string :=
  match base c with
  | BaseZ => String "z"%char (content c)
  | BaseB => String "b"%char (content c)
  end.

Definition address (n : Node) : string :=
  text (Data n) +:+
  String.concat "" (map (λ l, "/" +:+ content (Hash l)) (Links n)).

Definition getBlock (c : CID) (w : World) : option Node :=
  snd <$> find (λ b, String.eqb b.1 (content c)) (blocks w).

Definition putBlock (n : Node) (w : World) : World :=
  mkWorld ((address n, n) :: blocks w) (rootKey w) (closed w) (diskFull w).

Definition notFound : JsError := errCode (Error "Not Found") "ERR_NOT_FOUND".

(** Whether the address of [n] is taken by another node. *)
Definition taken (n : Node) (w : World) : bool :=
  match getBlock (ofText (address n)) w with
  | Some n' => negb (bool_decide (n' = n))
  | None => false
  end.

Definition addressTaken : JsError := Error "Address taken by another node".

Definition putNode (n : Node) (w : World) : Outcome CID * World :=
  if taken n w
  then (Err addressTaken, w)
  else (Ok (ofText (address n)), putBlock n w).

Definition getNode (c : CID) (w : World) : Outcome Node * World :=
  match getBlock c w with
  | Some n => (Ok n, w)
  | None => (Err notFound, w)
  end.

(** The nodes reachable from [c], itself first. *)
Fixpoint closure (fuel : nat) (w : World) (c : CID) : option (list Node) :=
  match fuel with
  | O => None
  | S fuel =>
      n ← getBlock c w;
      below ← mapM (closure fuel w) (Hash <$> Links n);
      Some (n :: concat below)
  end.

Definition getRecursive (b : Buffer) (w : World)
    : Outcome (list Node) * World :=
  match closure (S (length (blocks w))) w (ofText (text b)) with
  | Some nodes => (Ok nodes, w)
  | None => (Err notFound, w)
  end.

(** Whether [key] names a node below [n]. *)
Fixpoint descends (fuel : nat) (w : World) (n : Node) (key : string) : bool :=
  match fuel with
  | O => false
  | S fuel =>
      existsb (λ l,
        String.eqb (toBaseEncodedString (Hash l)) key
        || match getBlock (Hash l) w with
           | Some child => descends fuel w child key
           | None => false
           end) (Links n)
  end.

Definition hasDescendant (n : Node) (key : string) (w : World)
    : Outcome bool * World :=
  (Ok (descends (S (length (blocks w))) w n key), w).

Definition storeSet (keys : list Buffer) (label : string) (w : World)
    : Outcome (Node * CID) * World :=
  let n := mkNode [] ((λ b, mkLink "" 0 (ofText (text b))) <$> keys) in
  if taken n w
  then (Err addressTaken, w)
  else (Ok (n, ofText (address n)), putBlock n w).

Definition loadSet (root : Node) (label : string) (w : World)
    : Outcome (list Buffer) * World :=
  match find (λ l, String.eqb (Name l) label) (Links root) with
  | None => (Err (Error ("No link found with name " +:+ label)), w)
  | Some l =>
      match getBlock (Hash l) w with
      | Some n => (Ok ((λ l, bytes (content (Hash l))) <$> Links n), w)
      | None => (Err notFound, w)
      end
  end.

Definition getInternalCids (root : Node) (w : World)
    : Outcome (list CID) * World :=
  (Ok (Hash <$> Links root), w).

Definition openRepo (w : World) : Outcome unit * World :=
  (Ok tt, mkWorld (blocks w) (rootKey w) false (diskFull w)).

Definition hasKey (k : string) (w : World) : Outcome bool * World :=
  (Ok (String.eqb k PIN_DS_KEY && bool_decide (is_Some (rootKey w))), w).

Definition getKey (k : string) (w : World) : Outcome Buffer * World :=
  match rootKey w with
  | Some v => if String.eqb k PIN_DS_KEY then (Ok v, w) else (Err notFound, w)
  | None => (Err notFound, w)
  end.

Definition putKey (k : string) (v : Buffer) (w : World)
    : Outcome unit * World :=
  if diskFull w
  then (Err (Error "ENOSPC: no space left on device"), w)
  else (Ok tt, mkWorld (blocks w) (Some v) (closed w) (diskFull w)).

#[export] Instance collaborators : Collaborators World Node CID Link := {|
  CID_new := parseCid;
  CID_toBaseEncodedString := toBaseEncodedString;
  CID_toString := toBaseEncodedString;
  CID_buffer := λ c, bytes (content c);
  DAGNode_create := λ data links, Returns (mkNode data links);
  DAGNode_size := λ n, N.of_nat (length (Links n));
  DAGNode_toString := address;
  DAGLink_new := λ name size cid, Returns (mkLink name size cid);
  util_serialize := λ n, Returns (bytes (address n));
  util_cid := λ b, Returns (ofText (text b));
  dag_put := putNode;
  dag_get := getNode;
  dag_getRecursive := getRecursive;
  pinset_storeSet := storeSet;
  pinset_loadSet := loadSet;
  pinset_hasDescendant := hasDescendant;
  pinset_getInternalCids := getInternalCids;
  repo_closed := closed;
  repo_open := openRepo;
  datastore_open := openRepo;
  datastore_has := hasKey;
  datastore_get := getKey;
  datastore_put := putKey
|}.

(** A leaf [x], and a node [a] that links to it. *)
Definition leafX : Node := mkNode (bytes "x") [].
Definition nodeA : Node := mkNode (bytes "a") [mkLink "child" 1 "x"].

(** An empty repository, the same with a full disk, and one whose block
    store holds [a] and [x]. *)
Definition emptyWorld : World := mkWorld [] None false false.
Definition fullDisk : World := mkWorld [] None false true.
Definition withBlocks : World :=
  mkWorld [("a/x", nodeA); ("x", leafX)] None false false.

Definition start (p : PinManager Link) (w : World) : State World Link :=
  mkState p w [].

(** Managers to start from: [a] and [x] both pinned recursively, [a]
    alone, a direct and a recursive pin, and a direct pin under its
    other spelling. *)
Definition pinsAX : PinManager Link := mkPinManager [] ["za/x"; "zx"] ∅.
Definition pinsAB : PinManager Link := mkPinManager ["zA"] ["zB"] ∅.
Definition pinsOtherBase : PinManager Link := mkPinManager ["bA"] [] ∅.

(** The state after [zA] was pinned directly in an empty repository,
    the state after it was removed again, and the root both calls
    wrote. *)
Definition afterAddA : State World Link :=
  (addDirectPins ["zA"] (start constructor emptyWorld)).2.
Definition afterRmA : State World Link :=
  (rmPins ["zA"] false afterAddA).2.
Definition rootA : Root Node :=
  mkRoot (mkNode [] [mkLink "direct" 1 "/A"; mkLink "recursive" 0 ""])
         (bytes "//A/").

(** The state after pinning [zA] failed on a full disk. *)
Definition diskFullError : JsError := Error "ENOSPC: no space left on device".
Definition afterFailedAddA : State World Link :=
  (addDirectPins ["zA"] (start constructor fullDisk)).2.

(** The state after removing the direct pin [zA] failed on a full disk. *)
Definition afterFailedRmA : State World Link :=
  (rmPins ["zA"] false (start pinsAB fullDisk)).2.

(** The root a flush of [pinsAB] writes. *)
Definition rootAB : Root Node :=
  mkRoot (mkNode [] [mkLink "direct" 1 "/A"; mkLink "recursive" 1 "/B"])
         (bytes "//A//B").

End InMemory.

(** * A scripted world

    A second implementation of the collaborators, for the paths on which
    a store or the codec fails: the world is the script of what each call
    answers, and no call changes it.  Nodes and links carry nothing; a
    CID is its buffer, and [new CID] rejects the empty one. *)
Module Scripted.

Record World : Type := mkWorld {
  onGet : Outcome Buffer;
  onDagGet : Outcome unit;
  onInternalCids : Outcome (list Buffer);
  onLoadRecursive : Outcome (list Buffer);
  onLoadDirect : Outcome (list Buffer);
  onGetRecursive : Buffer → Outcome (list unit)
}.

Definition parseCid (src : CidSource Buffer) : Sync Buffer :=
  match src with
  | FromString t => Returns (String.list_byte_of_string t)
  | FromBuffer [] => Throws (Error "Invalid CID")
  | FromBuffer b => Returns b
  | FromCid c => Returns c
  end.

Definition answer {A} (o : World → Outcome A) (w : World)
    : Outcome A * World := (o w, w).

Definition loadSet (root : unit) (label : string) (w : World)
    : Outcome (list Buffer) * World :=
  if String.eqb label "recursive"
  then (onLoadRecursive w, w)
  else (onLoadDirect w, w).

#[export] Instance collaborators : Collaborators World unit Buffer unit := {|
  CID_new := parseCid;
  CID_toBaseEncodedString := String.string_of_list_byte;
  CID_toString := String.string_of_list_byte;
  CID_buffer := λ c, c;
  DAGNode_create := λ data links, Returns tt;
  DAGNode_size := λ n, 0%N;
  DAGNode_toString := λ n, "DAGNode";
  DAGLink_new := λ name size cid, Returns tt;
  util_serialize := λ n, Returns [];
  util_cid := λ b, Returns b;
  dag_put := λ n, answer (λ w, Ok []);
  dag_get := λ c, answer onDagGet;
  dag_getRecursive := λ b, answer (λ w, onGetRecursive w b);
  pinset_storeSet := λ keys label, answer (λ w, Ok (tt, []));
  pinset_loadSet := loadSet;
  pinset_hasDescendant := λ n key, answer (λ w, Ok false);
  pinset_getInternalCids := λ n, answer onInternalCids;
  repo_closed := λ w, false;
  repo_open := answer (λ w, Ok tt);
  datastore_open := answer (λ w, Ok tt);
  datastore_has := λ k, answer (λ w, Ok true);
  datastore_get := λ k, answer onGet;
  datastore_put := λ k v, answer (λ w, Ok tt)
|}.

Definition ioError : JsError := Error "EIO: i/o error".
Definition notFound : JsError := errCode (Error "Not Found") "ERR_NOT_FOUND".
Definition x41 : Buffer := [Byte.x41].
Definition x42 : Buffer := [Byte.x42].

(** Scripts: everything answers; the datastore fails; the DAG has lost
    the root; the codec fails; the recursive set, or the direct set,
    decodes to a buffer [new CID] rejects; the datastore fails with the
    message [load] looks for; the closure of [x42] cannot be fetched. *)
Definition allWell : World :=
  mkWorld (Ok x41) (Ok tt) (Ok [x42]) (Ok [x42]) (Ok [x41])
          (λ b, Ok [tt]).
Definition badDatastore : World :=
  mkWorld (Err ioError) (Ok tt) (Ok [x42]) (Ok [x42]) (Ok [x41])
          (λ b, Ok [tt]).
Definition lostRoot : World :=
  mkWorld (Ok x41) (Err notFound) (Ok [x42]) (Ok [x42]) (Ok [x41])
          (λ b, Ok [tt]).
Definition badCodec : World :=
  mkWorld (Ok x41) (Ok tt) (Err ioError) (Err ioError) (Ok [x41])
          (λ b, Ok [tt]).
Definition badRecursiveKey : World :=
  mkWorld (Ok x41) (Ok tt) (Ok [x42]) (Ok [[]]) (Ok [x41])
          (λ b, Ok [tt]).
Definition badDirectKey : World :=
  mkWorld (Ok x41) (Ok tt) (Ok [x42]) (Ok [x42]) (Ok [[]])
          (λ b, Ok [tt]).
Definition oddError : World :=
  mkWorld (Err (Error "No pins to load")) (Ok tt) (Ok [x42]) (Ok [x42])
          (Ok [x41]) (λ b, Ok [tt]).
Definition lostClosure : World :=
  mkWorld (Ok x41) (Ok tt) (Ok [x42]) (Ok [x42]) (Ok [x41])
          (λ b, match b with [Byte.x42] => Err notFound | _ => Ok [tt] end).

Definition start (p : PinManager unit) (w : World) : State World unit :=
  mkState p w [].

End Scripted.

(** More managers and roots for the in-memory world: [zA] in both
    sets, [zA] pinned directly alone, and the root written when [zB] is
    pinned directly after [zA]. *)
Definition pinsBoth : PinManager InMemory.Link :=
  mkPinManager ["zA"] ["zA"] ∅.
Definition pinsOnlyA : PinManager InMemory.Link :=
  mkPinManager ["zA"] [] ∅.
Definition rootAthenB : Root InMemory.Node :=
  mkRoot (InMemory.mkNode []
            [InMemory.mkLink "direct" 2 (InMemory.ofText "/A/B");
             InMemory.mkLink "recursive" 0 (InMemory.ofText "")])
         (InMemory.bytes "//A/B/").

(** * The vocabulary of the properties *)

(** The four values [checkPinType] accepts. *)
Definition validPinTypes : list JsValue :=
  [JsString "direct"; JsString "recursive"; JsString "indirect";
   JsString "all"].

(** The state a critical section of mode [m] leaves when its body took
    [s] to nothing new. *)
Definition afterLock {World Link} (m : LockMode) (s : State World Link)
    : State World Link :=
  mkState (this s) (world s) (trace s ++ [Acquire m; Release m]).

(** The error an outcome carries, if it is a failure. *)
Definition errorOf {A} (o : Outcome A) : option JsError :=
  match o with
  | Ok _ => None
  | Err e | Thrown e => Some e
  end.

(** The value an outcome carries, if it is a success. *)
Definition valueOf {A} (o : Outcome A) : option A :=
  match o with
  | Ok a => Some a
  | _ => None
  end.

Section Vocabulary.
Context {World Node CID Link : Type}.
Context `{C : !Collaborators World Node CID Link}.
Implicit Types (s : State World Link) (p : PinManager Link) (w : World).
Implicit Types (keys : list string) (ref : PinSetRef).
Implicit Types (mh : Buffer) (n : Node) (c : CID) (k key : string).

Local Abbreviation Async := (@Async World Link).

(** The two sets of a manager. *)
Definition pins p : JsSet.t * JsSet.t := (directPins p, recursivePins p).

(** A computation that never changes what [f] reads off the manager. *)
Definition keeps {X A} (f : PinManager Link → X) (m : Async A) : Prop :=
  ∀ s r s', m s = (r, s') → f (this s') = f (this s).

(** The keys [_addPins] keeps after its filter. *)
Definition newKeys keys ref p : list string :=
  filter (λ k, negb (JsSet.has k (pinSetOf ref p))) keys.

(** The manager as [_addPins] has it when it calls [_flushPins]. *)
Definition afterAdd keys ref (pinType : string) p : PinManager Link :=
  let p1 := setLinkCache (delete pinType (_linkCache p)) p in
  setPinSet ref (JsSet.addAll (newKeys keys ref p) (pinSetOf ref p1)) p1.

(** The manager as [rmPins] has it when it calls [_flushPins]. *)
Definition afterRm keys (recursive : bool) p : PinManager Link :=
  foldl (rmPin recursive) p keys.

(** The state in which a write-locked operation calls [_flushPins]. *)
Definition flushing (p : PinManager Link) s : State World Link :=
  mkState p (world s) (trace s ++ [Acquire WriteLock]).

(** How a write-locked operation ends once [_flushPins] has. *)
Definition released (o : Outcome (Root Node) * State World Link)
    : Outcome (Added Node) * State World Link :=
  match o with
  | (Ok root, s1) =>
      (Ok (Flushed root),
       mkState (this s1) (world s1) (trace s1 ++ [Release WriteLock]))
  | (Err e, s1) =>
      (Err e, mkState (this s1) (world s1) (trace s1 ++ [Release WriteLock]))
  | (Thrown e, s1) => (Thrown e, s1)
  end.

(** [k] is the address [getIndirectKeys] re-derives for node [n]. *)
Definition derivedKey n k : Prop :=
  ∃ bytes c, util_serialize n = Returns bytes ∧
             util_cid bytes = Returns c ∧ CID_toString c = k.

(** The recursive pins in the order [eachLimit] takes them, each with
    the world its closure is fetched in. *)
Fixpoint visits (roots : list Buffer) w : list (Buffer * World) :=
  match roots with
  | [] => []
  | mh :: rest => (mh, w) :: visits rest (dag_getRecursive mh w).2
  end.

(** [nodes] is the closure the DAG reports for [mh] in world [w]. *)
Definition closureAt (v : Buffer * World) (nodes : list Node) : Prop :=
  (dag_getRecursive v.1 v.2).1 = Ok nodes.

(** The datastore, opened first when the repository is closed, reports
    in world [w] that the root key is absent, leaving world [w']. *)
Definition rootAbsent w w' : Prop :=
  if repo_closed w
  then ∃ w1, datastore_open w = (Ok tt, w1) ∧
             datastore_has PIN_DS_KEY w1 = (Ok false, w')
  else datastore_has PIN_DS_KEY w = (Ok false, w').

(** In world [w] the DAG has the node of [c], and the codec finds [key]
    among that node's descendants; neither lookup changes the world. *)
Definition under key c w : Prop :=
  ∃ n, dag_get c w = (Ok n, w) ∧
       pinset_hasDescendant n key w = (Ok true, w).

(** In world [w] both lookups succeed for every one of [cids] and leave
    the world as it is. *)
Definition settled key (cids : list CID) w : Prop :=
  ∀ c, c ∈ cids →
    ∃ n b, dag_get c w = (Ok n, w) ∧
           pinset_hasDescendant n key w = (Ok b, w).

(** A key that is the canonical form of its own buffer: the string
    [load] computes for the buffer [directKeys] computes for [k] is [k]
    again. *)
Definition canonical k : Prop :=
  ∃ c, CID_new (FromString k) = Returns c ∧
       toB58String (FromBuffer (CID_buffer c)) = Returns k.

(** In world [w] the stores give back what a flush that returned [root]
    wrote, and the codec what it was given: the repository is open, the
    root key holds the multihash of [root], that multihash is the CID of
    the node of [root] in the DAG, and [loadSet] decodes from that node
    the buffers [rbufs] and [dbufs].  None of these reads changes the
    world. *)
Definition readsBack w (root : Root Node) (dbufs rbufs : list Buffer)
    : Prop :=
  repo_closed w = false ∧
  datastore_has PIN_DS_KEY w = (Ok true, w) ∧
  datastore_get PIN_DS_KEY w = (Ok (multihash root), w) ∧
  (∃ c, CID_new (FromBuffer (multihash root)) = Returns c ∧
        dag_get c w = (Ok (node root), w)) ∧
  pinset_loadSet (node root) "recursive" w = (Ok rbufs, w) ∧
  pinset_loadSet (node root) "direct" w = (Ok dbufs, w).

End Vocabulary.

Section Vocabulary2.
Context {World Node CID Link : Type}.
Context `{C : !Collaborators World Node CID Link}.
Implicit Types (s : State World Link) (p : PinManager Link) (w : World).

(** [l] is the link made for the set node that the codec, asked in world
    [w] to store [keys] under [label], calls back with, leaving world
    [w']. *)
Definition encodes (label : string) (keys : list Buffer) (l : Link) w w'
    : Prop :=
  ∃ nd cd, pinset_storeSet keys label w = (Ok (nd, cd), w') ∧
           DAGLink_new label (DAGNode_size nd) cd = Returns l.

End Vocabulary2.

Section Stores.
Context {World Node CID Link : Type}.
Context `{C : !Collaborators World Node CID Link}.
Implicit Types (s : State World Link) (p : PinManager Link) (w : World).

(** [w'] is [w] after more of the writes a flush makes, whatever their
    outcome: sets stored by the codec, nodes put into the DAG, the
    repository opened, a key written to the datastore. *)
Inductive later : World → World → Prop :=
| later_now w : later w w
| later_storeSet keys label w r w1 w' :
    pinset_storeSet keys label w = (r, w1) → later w1 w' → later w w'
| later_dag_put n w r w1 w' :
    dag_put n w = (r, w1) → later w1 w' → later w w'
| later_repo_open w r w1 w' :
    repo_open w = (r, w1) → later w1 w' → later w w'
| later_datastore_put k v w r w1 w' :
    datastore_put k v w = (r, w1) → later w1 w' → later w w'.

(** The stores give back what was written to them.  A node that
    [dag.put] accepted is, after any later writes, what [dag.get]
    answers for the CID read from the buffer of the CID [dag.put]
    called back with.  A repository that was opened is not closed.  A
    value the datastore accepted under the root key is what it has and
    gives under that key next, and writing it neither closes nor opens
    the repository.  None of these reads changes the world. *)
Definition storesGiveBack : Prop :=
  (∀ n w c w1 w2,
     dag_put n w = (Ok c, w1) → later w1 w2 →
     ∃ c', CID_new (FromBuffer (CID_buffer c)) = Returns c' ∧
           dag_get c' w2 = (Ok n, w2)) ∧
  (∀ w w1, repo_open w = (Ok tt, w1) → repo_closed w1 = false) ∧
  (∀ v w w1,
     datastore_put PIN_DS_KEY v w = (Ok tt, w1) →
     repo_closed w1 = repo_closed w ∧
     datastore_has PIN_DS_KEY w1 = (Ok true, w1) ∧
     datastore_get PIN_DS_KEY w1 = (Ok v, w1)).

(** The codec's [loadSet] inverts its [storeSet].  From a root node
    created with the link made for a stored direct set and the link made
    for a stored recursive set, in this order, [loadSet] decodes, after
    any later writes, the buffers each [storeSet] was given, in some
    order, and leaves the world as it is. *)
Definition loadSetInvertsStoreSet : Prop :=
  ∀ (dkeys rkeys : list Buffer) (dl rl : Link) wd wd' wr wr' (root : Node) w,
    encodes "direct" dkeys dl wd wd' →
    encodes "recursive" rkeys rl wr wr' →
    DAGNode_create [] [dl; rl] = Returns root →
    later wd' w → later wr' w →
    ∃ rkeys' dkeys',
      pinset_loadSet root "recursive" w = (Ok rkeys', w) ∧
      pinset_loadSet root "direct" w = (Ok dkeys', w) ∧
      (∀ b, b ∈ rkeys' ↔ b ∈ rkeys) ∧
      (∀ b, b ∈ dkeys' ↔ b ∈ dkeys).

(** A link held in [cache] under [label] is current in world [w] for
    the buffers [bufs]: it is the link made for a set node the codec
    stored for these buffers, some writes before [w].  A cache without
    a link under [label] is current. *)
Definition current (label : string) (bufs : list Buffer)
    (cache : gmap string Link) w : Prop :=
  ∀ l, cache !! label = Some l →
    ∃ w0 w1, encodes label bufs l w0 w1 ∧ later w1 w.

End Stores.

Section Vocabulary3.
Context {World Link : Type}.

(** A computation that reads and writes the world only: its outcome and
    the world it leaves depend on the world it starts in alone, and the
    manager and the trace pass through it. *)
Definition worldOnly {A} (m : @Async World Link A) : Prop :=
  ∀ w, ∃ r w', ∀ p t, m (mkState p w t) = (r, mkState p w' t).

End Vocabulary3.

Section Vocabulary4.
Context {World Link : Type}.
Implicit Types (s : State World Link).

Definition isLog (ev : Event) : Prop :=
  match ev with
  | Log _ => True
  | _ => False
  end.

(** A computation that takes and gives back no lock: all it adds to the
    trace is log lines. *)
Definition lockFree {A} (m : @Async World Link A) : Prop :=
  ∀ s r s', m s = (r, s') →
    ∃ logs, Forall isLog logs ∧ trace s' = trace s ++ logs.

(** Whether a run ended in a callback, with a result or an error, and
    not in an exception. *)
Definition calledBack {A} (o : Outcome A) : bool :=
  match o with
  | Thrown _ => false
  | _ => true
  end.

(** The run, from state [s], was one critical section of mode [m]: the
    lock was taken once, only log lines follow, and the lock was given
    back at the end if the run ended in a callback. *)
Definition oneSection {A} (m : LockMode)
    (run : Outcome A * State World Link) s : Prop :=
  ∃ logs, Forall isLog logs ∧
    trace run.2 =
      trace s ++ Acquire m :: logs ++
        (if calledBack run.1 then [Release m] else []).

End Vocabulary4.

(** Unfolds the monad and its primitive steps. *)
Ltac run :=
  unfold mbind, mret, Async_bind, Async_ret, readLock, writeLock, locked,
    log, emit, fail, sync, caught, getThis, setThis, observe, call,
    andFinally; simpl.

(** * Properties *)

(** ** Pin-type validation *)

Lemma includes_keys_valid (v : JsValue) :
  includes PinTypes.keys v = true ↔ v ∈ validPinTypes.
Proof.
  unfold validPinTypes, PinTypes.keys, PinTypes.direct, PinTypes.recursive,
    PinTypes.indirect, PinTypes.all.
  rewrite !elem_of_cons, elem_of_nil.
  destruct v as [| |b|text|s|description|conversion]; simpl;
    try (split; [discriminate | intros [H|[H|[H|[H|[]]]]]; discriminate H]).
  rewrite bool_decide_eq_true, !elem_of_cons, elem_of_nil. split.
  - intros [->|[->|[->|[->|[]]]]]; auto.
  - intros [H|[H|[H|[H|[]]]]]; injection H as ->; auto.
Qed.

Lemma checkPinType_valid (v : JsValue) :
  v ∈ validPinTypes → checkPinType v = Returns None.
Proof.
  intros Hv. unfold checkPinType.
  apply includes_keys_valid in Hv as Hi. rewrite Hi.
  destruct v; try (simpl in Hi; discriminate). reflexivity.
Qed.

Lemma checkPinType_invalid (v : JsValue) :
  v ∉ validPinTypes →
  checkPinType v =
    match invalidPinTypeErr v with
    | Returns err => Returns (Some err)
    | Throws e => Throws e
    end.
Proof.
  intros Hv. unfold checkPinType.
  destruct (includes PinTypes.keys v) eqn:Hi.
  - apply includes_keys_valid in Hi. contradiction.
  - rewrite orb_true_r. reflexivity.
Qed.

(** ** Sets *)

Lemma JsSet_has_true (k : string) (s : JsSet.t) :
  JsSet.has k s = true ↔ k ∈ s.
Proof. unfold JsSet.has. apply bool_decide_eq_true. Qed.

Lemma JsSet_has_false (k : string) (s : JsSet.t) :
  JsSet.has k s = false ↔ k ∉ s.
Proof. unfold JsSet.has. apply bool_decide_eq_false. Qed.

Lemma JsSet_elem_of_add (k x : string) (s : JsSet.t) :
  x ∈ JsSet.add k s ↔ x = k ∨ x ∈ s.
Proof.
  unfold JsSet.add. destruct (JsSet.has k s) eqn:Hk.
  - apply JsSet_has_true in Hk. split; [auto | intros [-> | ?]; auto].
  - rewrite elem_of_app, list_elem_of_singleton. tauto.
Qed.

Lemma JsSet_elem_of_addAll (ks : list string) (x : string) (s : JsSet.t) :
  x ∈ JsSet.addAll ks s ↔ x ∈ ks ∨ x ∈ s.
Proof.
  unfold JsSet.addAll. revert s.
  induction ks as [|k ks IH]; intros s; simpl.
  - rewrite elem_of_nil. tauto.
  - rewrite IH, JsSet_elem_of_add, elem_of_cons. tauto.
Qed.

Lemma JsSet_elem_of_delete (k x : string) (s : JsSet.t) :
  x ∈ JsSet.delete k s ↔ x ≠ k ∧ x ∈ s.
Proof. unfold JsSet.delete. by rewrite list_elem_of_filter. Qed.

Lemma JsSet_add_NoDup (k : string) (s : JsSet.t) :
  NoDup s → NoDup (JsSet.add k s).
Proof.
  intros Hs. unfold JsSet.add. destruct (JsSet.has k s) eqn:Hk; [done|].
  apply JsSet_has_false in Hk. apply NoDup_app. split_and!; [done| |].
  - intros x Hx ->%list_elem_of_singleton. contradiction.
  - apply NoDup_singleton.
Qed.

Lemma JsSet_addAll_NoDup (ks : list string) (s : JsSet.t) :
  NoDup s → NoDup (JsSet.addAll ks s).
Proof.
  unfold JsSet.addAll. revert s.
  induction ks as [|k ks IH]; intros s Hs; simpl; [done|].
  apply IH, JsSet_add_NoDup, Hs.
Qed.

(** Adding, in order, keys that are distinct and new appends them. *)
Lemma JsSet_addAll_fresh (ks : list string) (s : JsSet.t) :
  NoDup ks → (∀ k, k ∈ ks → k ∉ s) → JsSet.addAll ks s = s ++ ks.
Proof.
  unfold JsSet.addAll. revert s.
  induction ks as [|k ks IH]; intros s Hnd Hnew; simpl.
  - by rewrite app_nil_r.
  - apply NoDup_cons in Hnd as [Hk Hnd].
    unfold JsSet.add at 2.
    assert (JsSet.has k s = false) as ->.
    { apply JsSet_has_false, Hnew. left. }
    rewrite IH; [by rewrite <- app_assoc | done |].
    intros x Hx. rewrite elem_of_app, list_elem_of_singleton.
    intros [Hs | ->]; [|done]. eapply Hnew; [right; done | done].
Qed.

Lemma JsSet_ofList_NoDup (ks : list string) :
  NoDup ks → JsSet.ofList ks = ks.
Proof.
  intros Hnd. unfold JsSet.ofList.
  rewrite JsSet_addAll_fresh; [done | done |].
  intros k _. apply not_elem_of_nil.
Qed.

(** ** Running the monad *)

Section Queries.
Context {World Node CID Link : Type}.
Context `{C : !Collaborators World Node CID Link}.
Implicit Types (s : State World Link) (multihash : CidSource CID).

(** The answer of the first four steps of [isPinnedWithType]. *)
Lemma isPinnedWithType_recursive_hit multihash type key s :
  toB58String multihash = Returns key →
  type = "recursive" ∨ type = "all" →
  key ∈ recursivePins (this s) →
  isPinnedWithType multihash type s =
    (Ok (mkStatus key true (Some (ByType "recursive"))), s).
Proof.
  intros Hkey Hty Hin. unfold isPinnedWithType. run. rewrite Hkey.
  apply JsSet_has_true in Hin. rewrite Hin.
  destruct Hty as [-> | ->]; reflexivity.
Qed.

Lemma isPinnedWithType_recursive_miss multihash key s :
  toB58String multihash = Returns key →
  key ∉ recursivePins (this s) →
  isPinnedWithType multihash "recursive" s =
    (Ok (mkStatus key false None), s).
Proof.
  intros Hkey Hin. unfold isPinnedWithType. run. rewrite Hkey.
  apply JsSet_has_false in Hin. rewrite Hin. reflexivity.
Qed.

Lemma isPinnedWithType_direct_hit multihash type key s :
  toB58String multihash = Returns key →
  type = "direct" ∨ type = "all" ∧ key ∉ recursivePins (this s) →
  key ∈ directPins (this s) →
  isPinnedWithType multihash type s =
    (Ok (mkStatus key true (Some (ByType "direct"))), s).
Proof.
  intros Hkey Hty Hin. unfold isPinnedWithType. run. rewrite Hkey.
  apply JsSet_has_true in Hin. rewrite Hin.
  destruct Hty as [-> | [-> Hr]]; [reflexivity|].
  apply JsSet_has_false in Hr. rewrite Hr. reflexivity.
Qed.

Lemma isPinnedWithType_direct_miss multihash key s :
  toB58String multihash = Returns key →
  key ∉ directPins (this s) →
  isPinnedWithType multihash "direct" s =
    (Ok (mkStatus key false None), s).
Proof.
  intros Hkey Hin. unfold isPinnedWithType. run. rewrite Hkey.
  apply JsSet_has_false in Hin. rewrite Hin. reflexivity.
Qed.

(** C6. The lock-free steps of [isPinnedWithType], in their order.  With
    [key] the canonical form of the identifier: for type [recursive] or
    [all] a member of the recursive set is pinned with reason
    [recursive]; for type [recursive] a non-member is not pinned; for
    type [direct], or [all] once the first step did not answer, a member
    of the direct set is pinned with reason [direct]; for type [direct]
    a non-member is not pinned.  Each answer leaves the state, and so
    the trace of lock events, exactly as it was: no lock is taken. *)
Theorem isPinnedWithType_fast_paths multihash key s :
  toB58String multihash = Returns key →
  (∀ type, type = "recursive" ∨ type = "all" →
     key ∈ recursivePins (this s) →
     isPinnedWithType multihash type s =
       (Ok (mkStatus key true (Some (ByType "recursive"))), s)) ∧
  (key ∉ recursivePins (this s) →
     isPinnedWithType multihash "recursive" s =
       (Ok (mkStatus key false None), s)) ∧
  (∀ type, type = "direct" ∨ type = "all" ∧ key ∉ recursivePins (this s) →
     key ∈ directPins (this s) →
     isPinnedWithType multihash type s =
       (Ok (mkStatus key true (Some (ByType "direct"))), s)) ∧
  (key ∉ directPins (this s) →
     isPinnedWithType multihash "direct" s =
       (Ok (mkStatus key false None), s)).
Proof.
  intros Hkey. split_and!.
  - intros type. by apply isPinnedWithType_recursive_hit.
  - by apply isPinnedWithType_recursive_miss.
  - intros type. by apply isPinnedWithType_direct_hit.
  - by apply isPinnedWithType_direct_miss.
Qed.

End Queries.

(** ** What a computation leaves alone *)

Section Preservation.
Context {World Node CID Link : Type}.
Context `{C : !Collaborators World Node CID Link}.
Implicit Types (s : State World Link) (p : PinManager Link).

Local Abbreviation Async := (@Async World Link).
Local Abbreviation keeps f m := (@keeps World Link _ _ f m).

Section Keeps.
Context {X : Type} (f : PinManager Link → X).

Lemma keeps_ret {A} (a : A) : keeps f (mret a).
Proof. intros s r s' [= _ <-]. done. Qed.

Lemma keeps_bind {A B} (m : Async A) (k : A → Async B) :
  keeps f m → (∀ a, keeps f (k a)) → keeps f (m ≫= k).
Proof.
  intros Hm Hk s r s'. unfold mbind, Async_bind.
  destruct (m s) as [[a|e|e] s1] eqn:E; intros Hr.
  - rewrite (Hk a _ _ _ Hr). eauto.
  - injection Hr as _ <-. eauto.
  - injection Hr as _ <-. eauto.
Qed.

Lemma keeps_sync {A} (x : Sync A) : keeps f (sync x).
Proof. intros s r s'. unfold sync. destruct x; intros [= _ <-]; done. Qed.

Lemma keeps_caught {A} (x : Sync A) : keeps f (caught x).
Proof. intros s r s'. unfold caught. destruct x; intros [= _ <-]; done. Qed.

Lemma keeps_getThis : keeps f getThis.
Proof. intros s r s' [= _ <-]. done. Qed.

Lemma keeps_observe {A} (g : World → A) : keeps f (observe g).
Proof. intros s r s' [= _ <-]. done. Qed.

Lemma keeps_call {A} (g : World → Outcome A * World) : keeps f (call g).
Proof.
  intros s r s'. unfold call. destruct (g (world s)). intros [= _ <-]. done.
Qed.

Lemma keeps_log (msg : string) : keeps f (log msg).
Proof. intros s r s' [= _ <-]. done. Qed.

Lemma keeps_par {A B} (t1 : Async A) (t2 : Async B) :
  keeps f t1 → keeps f t2 → keeps f (par t1 t2).
Proof.
  intros H1 H2 s r s'. unfold par.
  destruct (t1 s) as [[a|e|e] s1] eqn:E1.
  - destruct (t2 s1) as [[b|e|e] s2] eqn:E2; intros [= _ <-];
      rewrite (H2 _ _ _ E2); eauto.
  - destruct (t2 s1) as [[b|e'|e'] s2] eqn:E2; intros [= _ <-];
      rewrite (H2 _ _ _ E2); eauto.
  - intros [= _ <-]. eauto.
Qed.

End Keeps.

(** Storing a link changes the cache only. *)
Lemma keeps_pins_cacheLink (label : string) (l : Link) :
  keeps pins (p ← getThis;
              setThis (setLinkCache (<[label := l]> (_linkCache p)) p);;
              mret l).
Proof. intros s r s'. run. intros [= _ <-]. done. Qed.

Lemma keeps_pins_flushDirectLink (dLink : option Link) :
  keeps pins (flushDirectLink dLink).
Proof.
  destruct dLink as [l|]; simpl; [apply keeps_ret|].
  apply keeps_bind; [apply keeps_getThis | intros p].
  apply keeps_bind; [apply keeps_sync | intros keys].
  apply keeps_bind; [apply keeps_call | intros res].
  apply keeps_bind; [apply keeps_caught | intros l].
  apply keeps_pins_cacheLink.
Qed.

Lemma keeps_pins_flushRecursiveLink (rLink : option Link) :
  keeps pins (flushRecursiveLink rLink).
Proof.
  destruct rLink as [l|]; simpl; [apply keeps_ret|].
  apply keeps_bind; [apply keeps_getThis | intros p].
  apply keeps_bind; [apply keeps_sync | intros keys].
  apply keeps_bind; [apply keeps_call | intros res].
  apply keeps_bind; [apply keeps_caught | intros l].
  apply keeps_pins_cacheLink.
Qed.

Lemma keeps_flushEmptyNode {X} (f : PinManager Link → X) :
  keeps f flushEmptyNode.
Proof.
  apply keeps_bind; [apply keeps_caught | intros n]. apply keeps_call.
Qed.

(** [_flushPins] reads the two sets and never writes them. *)
Lemma keepsPins_flushPins : keeps pins _flushPins.
Proof.
  unfold _flushPins.
  apply keeps_bind; [apply keeps_getThis | intros p].
  apply keeps_bind.
  { apply keeps_par; [apply keeps_pins_flushDirectLink|].
    apply keeps_par;
      [apply keeps_pins_flushRecursiveLink | apply keeps_flushEmptyNode]. }
  intros links.
  apply keeps_bind; [apply keeps_caught | intros n].
  apply keeps_bind; [apply keeps_call | intros cid].
  apply keeps_bind; [apply keeps_observe | intros closed].
  apply keeps_bind.
  { destruct closed; [apply keeps_call | apply keeps_ret]. }
  intros _.
  apply keeps_bind; [apply keeps_call | intros _].
  apply keeps_bind; [apply keeps_log | intros _].
  apply keeps_ret.
Qed.

End Preservation.

(** ** Adding and removing pins *)

Section Mutation.
Context {World Node CID Link : Type}.
Context `{C : !Collaborators World Node CID Link}.
Implicit Types (s : State World Link) (p : PinManager Link).
Implicit Types (keys : list string) (ref : PinSetRef).

Lemma newKeys_nil keys ref p :
  newKeys keys ref p = [] ↔ ∀ k, k ∈ keys → k ∈ pinSetOf ref p.
Proof.
  unfold newKeys. induction keys as [|k keys IH]; simpl.
  - split; [intros _ k Hk; by apply elem_of_nil in Hk | done].
  - rewrite filter_cons. destruct (JsSet.has k (pinSetOf ref p)) eqn:Hk; simpl.
    + apply JsSet_has_true in Hk. rewrite IH. split.
      * intros H x [-> | Hx]%elem_of_cons; auto.
      * intros H x Hx. apply H. by right.
    + apply JsSet_has_false in Hk. split; [done|].
      intros H. exfalso. apply Hk, H. by left.
Qed.

Lemma elem_of_newKeys keys ref p k :
  k ∈ newKeys keys ref p ↔ k ∈ keys ∧ k ∉ pinSetOf ref p.
Proof.
  unfold newKeys. rewrite list_elem_of_filter.
  destruct (JsSet.has k (pinSetOf ref p)) eqn:Hk; simpl.
  - apply JsSet_has_true in Hk. tauto.
  - apply JsSet_has_false in Hk. tauto.
Qed.

Lemma _addPins_run keys ref pinType s :
  _addPins keys ref pinType s =
    match newKeys keys ref (this s) with
    | [] => (Ok (NothingNew []), afterLock WriteLock s)
    | _ => released
             (_flushPins (flushing (afterAdd keys ref pinType (this s)) s))
    end.
Proof.
  unfold _addPins, afterAdd, newKeys, flushing, released, afterLock.
  run. destruct (filter _ keys) as [|k ks] eqn:E; simpl.
  - by rewrite <- app_assoc.
  - destruct (_flushPins _) as [[root|e|e] s1]; reflexivity.
Qed.

Lemma rmPins_run keys recursive s :
  keys ≠ [] →
  rmPins keys recursive s =
    released (_flushPins (flushing (afterRm keys recursive (this s)) s)).
Proof.
  intros Hne. unfold rmPins, afterRm, flushing, released.
  destruct keys as [|k ks]; [done|]. run.
  destruct (_flushPins _) as [[root|e|e] s1]; reflexivity.
Qed.

Lemma released_pins (o : Outcome (Root Node) * State World Link) r s' :
  released o = (r, s') → pins (this s') = pins (this o.2).
Proof. destruct o as [[root|e|e] s1]; simpl; intros [= <- <-]; done. Qed.

Lemma pins_afterAdd keys ref pinType p :
  pinSetOf ref (afterAdd keys ref pinType p) =
    JsSet.addAll (newKeys keys ref p) (pinSetOf ref p) ∧
  ∀ other, other ≠ ref →
    pinSetOf other (afterAdd keys ref pinType p) = pinSetOf other p.
Proof.
  unfold afterAdd. destruct ref; simpl; (split; [done|]);
    intros [] Ho; done.
Qed.

Lemma pinSetOf_pins ref p p' : pins p = pins p' → pinSetOf ref p = pinSetOf ref p'.
Proof. unfold pins. intros [= Hd Hr]. by destruct ref. Qed.

(** Whatever [_addPins] reports, the sets it leaves are those it flushed
    from. *)
Lemma _addPins_pins keys ref pinType s r s' :
  _addPins keys ref pinType s = (r, s') →
  pins (this s') = pins (afterAdd keys ref pinType (this s)).
Proof.
  rewrite _addPins_run. destruct (newKeys keys ref (this s)) eqn:E.
  - intros [= _ <-]. simpl. unfold afterAdd. rewrite E.
    by destruct ref, (this s).
  - intros Hrel. rewrite (released_pins _ _ _ Hrel).
    destruct (_flushPins _) as [o s1] eqn:Hf. simpl.
    apply (keepsPins_flushPins _ _ _ Hf).
Qed.

Lemma elem_of_after_addPins keys ref pinType s r s' x :
  _addPins keys ref pinType s = (r, s') →
  x ∈ pinSetOf ref (this s') ↔ x ∈ keys ∨ x ∈ pinSetOf ref (this s).
Proof.
  intros Hrun. apply _addPins_pins in Hrun.
  rewrite (pinSetOf_pins ref _ _ Hrun).
  destruct (pins_afterAdd keys ref pinType (this s)) as [-> _].
  rewrite JsSet_elem_of_addAll, elem_of_newKeys.
  destruct (decide (x ∈ pinSetOf ref (this s))); tauto.
Qed.

(** C4. Adding keys that are all in the target set already, through
    [addDirectPins] or [addRecursivePins], succeeds with the empty list
    of newly added keys.  The state it leaves differs from the one it
    found only by the write lock having been taken and given back: the
    two sets, the link cache and the world of the stores, the persisted
    root among them, are the same, and nothing was flushed or logged. *)
Theorem add_present_keys_noop keys s :
  ((∀ k, k ∈ keys → k ∈ directPins (this s)) →
   addDirectPins keys s = (Ok (NothingNew []), afterLock WriteLock s)) ∧
  ((∀ k, k ∈ keys → k ∈ recursivePins (this s)) →
   addRecursivePins keys s = (Ok (NothingNew []), afterLock WriteLock s)).
Proof.
  split; intros Hall.
  - unfold addDirectPins. rewrite _addPins_run.
    by apply (newKeys_nil keys TheDirectPins) in Hall as ->.
  - unfold addRecursivePins. rewrite _addPins_run.
    by apply (newKeys_nil keys TheRecursivePins) in Hall as ->.
Qed.

End Mutation.

(** ** The indirect keys *)

Section Indirect.
Context {World Node CID Link : Type}.
Context `{C : !Collaborators World Node CID Link}.
Implicit Types (s : State World Link) (p : PinManager Link).
Implicit Types (mh : Buffer) (w : World) (n : Node) (k : string).

Lemma mapAsync_cids (nodes : list Node) s (cids : list CID) s1 :
  mapAsync (λ n, bytes ← sync (util_serialize n); caught (util_cid bytes))
           nodes s = (Ok cids, s1) →
  s1 = s ∧ Forall2 (λ n c, derivedKey n (CID_toString c)) nodes cids.
Proof.
  revert cids. induction nodes as [|n nodes IH]; intros cids; simpl.
  - run. intros [= <- <-]. split; [done | constructor].
  - run. destruct (util_serialize n) as [bytes|e] eqn:Hser; [|done].
    destruct (util_cid bytes) as [c|e] eqn:Hcid; [|done].
    destruct (mapAsync _ nodes s) as [[cs|e|e] s2] eqn:Hrest; [|done..].
    intros [= <- <-]. destruct (IH cs eq_refl) as [-> Hall].
    split; [done|]. constructor; [|done]. by exists bytes, c.
Qed.

Lemma addIndirect_run mh (acc : JsSet.t) s (acc' : JsSet.t) s' :
  addIndirect mh acc s = (Ok acc', s') →
  this s' = this s ∧
  world s' = (dag_getRecursive mh (world s)).2 ∧
  ∃ nodes cids,
    closureAt (mh, world s) nodes ∧
    Forall2 (λ n c, derivedKey n (CID_toString c)) nodes cids ∧
    acc' = JsSet.addAll
             (filter (λ k, negb (JsSet.has k (recursivePins (this s))))
                     (map CID_toString cids)) acc.
Proof.
  unfold addIndirect, closureAt. simpl.
  unfold mbind at 1, Async_bind at 1, call at 1.
  destruct (dag_getRecursive mh (world s)) as [[nodes|e|e] w1] eqn:Hget;
    [|done..]. simpl.
  unfold mbind at 1, Async_bind at 1.
  destruct (mapAsync _ nodes _) as [[cids|e|e] s2] eqn:Hmap; [|done..].
  apply mapAsync_cids in Hmap as [-> Hall]. run.
  intros [= <- <-]. simpl. split_and!; [done..|]. by exists nodes, cids.
Qed.






End Indirect.

(** ** Loading *)

Section Loading.
Context {World Node CID Link : Type}.
Context `{C : !Collaborators World Node CID Link}.
Implicit Types (s : State World Link) (p : PinManager Link) (w : World).

Lemma loadRoot_absent s w' :
  rootAbsent (world s) w' →
  loadRoot s = (Err (Error "No pins to load"), mkState (this s) w' (trace s)).
Proof.
  unfold rootAbsent, loadRoot. run.
  destruct (repo_closed (world s)).
  - intros (w1 & Hopen & Hhas). rewrite Hopen. simpl. by rewrite Hhas.
  - intros Hhas. by rewrite Hhas.
Qed.

(** C8, as the code has it.  When [load] finds the root key absent it
    succeeds, and it leaves the manager as it found it, sets and link
    cache alike: the run only takes the write lock, logs and gives the
    lock back.  So both sets are empty afterwards when they were before,
    as on a manager just constructed. *)
Theorem load_without_root_keeps_manager s w' :
  rootAbsent (world s) w' →
  load s =
    (Ok tt,
     mkState (this s) w'
       (trace s ++ [Acquire WriteLock; Log "No pins to load";
                    Release WriteLock])) ∧
  (this s = constructor →
   directPins (this (load s).2) = JsSet.empty ∧
   recursivePins (this (load s).2) = JsSet.empty).
Proof.
  intros Habs.
  assert (load s =
    (Ok tt,
     mkState (this s) w'
       (trace s ++ [Acquire WriteLock; Log "No pins to load";
                    Release WriteLock]))) as Hload.
  { unfold load. run.
    rewrite (loadRoot_absent (mkState (this s) (world s) _) w' Habs). simpl.
    by rewrite <- !app_assoc. }
  split; [done|]. rewrite Hload. simpl. by intros ->.
Qed.

End Loading.

(** ** The indirect path of the query *)

Section IndirectPath.
Context {World Node CID Link : Type}.
Context `{C : !Collaborators World Node CID Link}.
Implicit Types (s : State World Link) (w : World) (key : string) (c : CID).

Lemma isUnder_settled key c s n b :
  dag_get c (world s) = (Ok n, world s) →
  pinset_hasDescendant n key (world s) = (Ok b, world s) →
  isUnder key c s = (Ok b, s).
Proof.
  intros Hget Hhas. unfold isUnder. run. rewrite Hget. simpl.
  rewrite Hhas. by destruct s.
Qed.

Lemma detectLimit_settled key (cids : list CID) s :
  settled key cids (world s) →
  ∃ found, detectLimit (isUnder key) cids s = (Ok found, s) ∧
    match found with
    | Some c => c ∈ cids ∧ under key c (world s)
    | None => ∀ c, c ∈ cids → ¬ under key c (world s)
    end.
Proof.
  induction cids as [|c cids IH]; intros Hset; simpl.
  - exists None. split; [done|]. intros c Hc. by apply elem_of_nil in Hc.
  - destruct (Hset c) as (n & b & Hget & Hhas); [left|].
    unfold mbind, Async_bind.
    rewrite (isUnder_settled _ _ _ _ _ Hget Hhas). destruct b.
    + exists (Some c). split; [done|]. split; [left | by exists n].
    + destruct IH as (found & Hrun & Hfound).
      { intros c' Hc'. apply Hset. by right. }
      exists found. split; [done|]. destruct found as [c'|].
      * destruct Hfound. split; [by right | done].
      * intros c' [-> | Hc']%elem_of_cons; [|by apply Hfound].
        intros (n' & Hget' & Hhas'). congruence.
Qed.

(** What the indirect path answers for a type that none of the first
    four steps answers, when the lookups succeed. *)
Lemma isPinnedWithType_indirect_path multihash type key s
    (roots : list Buffer) (cids : list CID) :
  toB58String multihash = Returns key →
  type ≠ "recursive" → type ≠ "direct" → type ≠ "all" →
  recursiveKeys (this s) = Returns roots →
  mapSync (λ b, CID_new (FromBuffer b)) roots = Returns cids →
  settled key cids (world s) →
  ∃ found,
    isPinnedWithType multihash type s =
      (Ok (mkStatus key (bool_decide (is_Some found)) (ByRoot <$> found)),
       afterLock ReadLock s) ∧
    match found with
    | Some c => c ∈ cids ∧ under key c (world s)
    | None => ∀ c, c ∈ cids → ¬ under key c (world s)
    end.
Proof.
  intros Hkey Hr Hd Ha Hroots Hcids Hset.
  destruct (detectLimit_settled key cids
              (mkState (this s) (world s) (trace s ++ [Acquire ReadLock])) Hset)
    as (found & Hrun & Hfound).
  exists found. split; [|done].
  unfold isPinnedWithType. run. rewrite Hkey.
  apply String.eqb_neq in Hr, Hd, Ha.
  unfold PinTypes.recursive, PinTypes.direct, PinTypes.all.
  rewrite Hr, Hd, Ha. simpl. rewrite Hroots, Hcids, Hrun. simpl.
  unfold afterLock. by rewrite <- app_assoc.
Qed.

(** C2, as the code has it.  Let the canonical form [key] of an
    identifier be a member of the recursive set, and let [a] be a
    recursive pin that has [key] among its descendants.  Queried with
    type [all] the identifier is pinned with reason [recursive], from
    the first step.  Queried with type [indirect] its own membership is
    not looked at: when the lookups of the recursive pins succeed, the
    query takes the read lock and answers pinned, the reason being a
    recursive pin that has [key] among its descendants. *)
Theorem recursive_member_under_another multihash key s
    (roots : list Buffer) (cids : list CID) (a : CID) :
  toB58String multihash = Returns key →
  key ∈ recursivePins (this s) →
  recursiveKeys (this s) = Returns roots →
  mapSync (λ b, CID_new (FromBuffer b)) roots = Returns cids →
  settled key cids (world s) →
  a ∈ cids →
  under key a (world s) →
  isPinnedWithType multihash "all" s =
    (Ok (mkStatus key true (Some (ByType "recursive"))), s) ∧
  ∃ c, c ∈ cids ∧ under key c (world s) ∧
       isPinnedWithType multihash "indirect" s =
         (Ok (mkStatus key true (Some (ByRoot c))), afterLock ReadLock s).
Proof.
  intros Hkey Hin Hroots Hcids Hset Ha Hunder. split.
  - apply isPinnedWithType_recursive_hit; auto.
  - destruct (isPinnedWithType_indirect_path multihash "indirect" key s
                roots cids) as (found & Hrun & Hfound); [done..|].
    destruct found as [c|].
    + destruct Hfound. by exists c.
    + exfalso. by apply (Hfound a).
Qed.

End IndirectPath.

(** ** What a flush writes *)

Section Flushing.
Context {World Node CID Link : Type}.
Context `{C : !Collaborators World Node CID Link}.
Implicit Types (s : State World Link) (p : PinManager Link) (w : World).

(** With both links cached, [_flushPins] encodes neither set: the root
    it builds has the cached links, and the manager is left as it was. *)
Lemma flushPins_cached s (root : Root Node) s1 (dl rl : Link) :
  _linkCache (this s) !! "direct" = Some dl →
  _linkCache (this s) !! "recursive" = Some rl →
  _flushPins s = (Ok root, s1) →
  DAGNode_create [] [dl; rl] = Returns (node root) ∧ this s1 = this s.
Proof.
  intros Hd Hr. unfold _flushPins, par, flushEmptyNode. run.
  rewrite Hd, Hr. simpl. run.
  destruct (DAGNode_create [] []) as [empty|e]; simpl; [|done].
  destruct (dag_put empty (world s)) as [[c0|e|e] w1]; simpl; [|done..].
  destruct (DAGNode_create [] [dl; rl]) as [n|e] eqn:Hn; simpl; [|done].
  destruct (dag_put n w1) as [[c|e|e] w2]; simpl; [|done..].
  destruct (repo_closed w2); simpl.
  - destruct (repo_open w2) as [[[]|e|e] w3]; simpl; [|done..].
    destruct (datastore_put _ _ w3) as [[[]|e|e] w4]; simpl; [|done..].
    intros [= <- <-]. done.
  - destruct (datastore_put _ _ w2) as [[[]|e|e] w4]; simpl; [|done..].
    intros [= <- <-]. done.
Qed.

End Flushing.

(** ** Reading back what a flush wrote *)

Section RoundTrip.
Context {World Node CID Link : Type}.
Context `{C : !Collaborators World Node CID Link}.
Implicit Types (s : State World Link) (p : PinManager Link) (w : World).
Implicit Types (k : string).

Lemma canonical_buffers (ks : list string) (bufs : list Buffer) :
  mapSync keyBuffer ks = Returns bufs →
  (∀ k, k ∈ ks → canonical k) →
  mapSync (λ b, toB58String (FromBuffer b)) bufs = Returns ks.
Proof.
  revert bufs. induction ks as [|k ks IH]; intros bufs; simpl.
  - by intros [= <-].
  - intros Hmap Hcan. destruct (Hcan k) as (c & Hc & Hback); [left|].
    unfold keyBuffer in Hmap at 1. rewrite Hc in Hmap.
    destruct (mapSync keyBuffer ks) as [rest|e]; [|done].
    injection Hmap as <-. simpl. rewrite Hback.
    rewrite (IH rest); [done | done |]. intros k' Hk'. apply Hcan. by right.
Qed.

Lemma load_readsBack p w t (root : Root Node) (dbufs rbufs : list Buffer)
    (d r : list string) :
  readsBack w root dbufs rbufs →
  mapSync (λ b, toB58String (FromBuffer b)) dbufs = Returns d →
  mapSync (λ b, toB58String (FromBuffer b)) rbufs = Returns r →
  load (mkState p w t) =
    (Ok tt,
     mkState (mkPinManager (JsSet.ofList d) (JsSet.ofList r) (_linkCache p)) w
       (t ++ [Acquire WriteLock; Log "Loaded pins from the datastore";
              Release WriteLock])).
Proof.
  intros (Hopen & Hhas & Hget & (c & Hc & Hdag) & Hr & Hd) Hds Hrs.
  unfold load, loadRoot, par. run.
  rewrite Hopen. simpl. rewrite Hhas. simpl. rewrite Hget. simpl.
  rewrite Hc. simpl. rewrite Hdag. simpl.
  unfold PinTypes.recursive, PinTypes.direct.
  rewrite Hr. simpl. rewrite Hd. simpl. rewrite Hds. simpl. rewrite Hrs.
  simpl. unfold setRecursivePins, setDirectPins. simpl.
  by rewrite <- !app_assoc.
Qed.

Lemma elem_of_ofList (ks : list string) k : k ∈ JsSet.ofList ks ↔ k ∈ ks.
Proof.
  unfold JsSet.ofList. rewrite JsSet_elem_of_addAll.
  unfold JsSet.empty. rewrite elem_of_nil. tauto.
Qed.

Lemma mapSync_elem_of {A B} (f : A → Sync B) (xs : list A) (ys : list B) :
  mapSync f xs = Returns ys →
  (∀ x, x ∈ xs → ∃ y, f x = Returns y) ∧
  (∀ y, y ∈ ys ↔ ∃ x, x ∈ xs ∧ f x = Returns y).
Proof.
  revert ys. induction xs as [|x xs IH]; intros ys; simpl.
  - intros [= <-]. split.
    + intros x Hx. by apply elem_of_nil in Hx.
    + intros y. split; [by intros Hy%elem_of_nil|].
      by intros (x & Hx%elem_of_nil & _).
  - destruct (f x) as [y0|e] eqn:Hx; [|done].
    destruct (mapSync f xs) as [ys0|e]; [|done].
    intros [= <-]. destruct (IH ys0 eq_refl) as [Hall Hiff]. split.
    + intros x' [-> | Hx']%elem_of_cons; [by exists y0 | by apply Hall].
    + intros y. rewrite elem_of_cons, Hiff. split.
      * intros [-> | (x' & Hx' & Hy)].
        -- exists x. split; [left | done].
        -- exists x'. split; [by right | done].
      * intros (x' & [-> | Hx']%elem_of_cons & Hy).
        -- left. congruence.
        -- right. by exists x'.
Qed.

Lemma mapSync_returns {A B} (f : A → Sync B) (xs : list A) :
  (∀ x, x ∈ xs → ∃ y, f x = Returns y) → ∃ ys, mapSync f xs = Returns ys.
Proof.
  induction xs as [|x xs IH]; intros Hall; simpl; [by exists []|].
  destruct (Hall x) as [y ->]; [left|].
  destruct IH as [ys ->]; [|by exists (y :: ys)].
  intros x' Hx'. apply Hall. by right.
Qed.

(** The strings [load] makes of buffers that are, in some order, the
    buffers of canonical keys are these keys, in some order. *)
Lemma canonical_members (ks : list string) (bufs bufs' : list Buffer) :
  mapSync keyBuffer ks = Returns bufs →
  (∀ k, k ∈ ks → canonical k) →
  (∀ b, b ∈ bufs' ↔ b ∈ bufs) →
  ∃ ks', mapSync (λ b, toB58String (FromBuffer b)) bufs' = Returns ks' ∧
         ∀ k, k ∈ ks' ↔ k ∈ ks.
Proof.
  intros Hmap Hcan Hsame.
  pose proof (canonical_buffers _ _ Hmap Hcan) as Hback.
  apply mapSync_elem_of in Hback as [Hall Hiff].
  destruct (mapSync_returns (λ b, toB58String (FromBuffer b)) bufs')
    as [ks' Hks'].
  { intros b Hb. apply Hall. by apply Hsame. }
  exists ks'. split; [done|]. intros k.
  apply mapSync_elem_of in Hks' as [_ ->]. rewrite Hiff.
  split; intros (b & Hb & Hk); exists b; (split; [by apply Hsame | done]).
Qed.

End RoundTrip.

(** ** Removing pins with links cached *)

Section CachedLinks.
Context {World Node CID Link : Type}.
Context `{C : !Collaborators World Node CID Link}.
Implicit Types (s : State World Link) (p : PinManager Link).

Lemma afterRm_linkCache (keys : list string) (recursive : bool) p :
  _linkCache (afterRm keys recursive p) = _linkCache p.
Proof.
  unfold afterRm. revert p. induction keys as [|k ks IH]; intros p; [done|].
  simpl. rewrite IH. unfold rmPin. by destruct (_ && _).
Qed.

(** C1, where the code departs from it.  [rmPins] drops no cache entry.
    With both links cached, a call of [rmPins] that flushes successfully
    leaves the sets its loop produced, whatever that removed, yet builds
    the root it persists from the two cached links, and leaves the cache
    as it was. *)
Theorem rmPins_reuses_cached_links (keys : list string) (recursive : bool)
    s (root : Root Node) s' (dl rl : Link) :
  _linkCache (this s) !! "direct" = Some dl →
  _linkCache (this s) !! "recursive" = Some rl →
  rmPins keys recursive s = (Ok (Flushed root), s') →
  directPins (this s') = directPins (afterRm keys recursive (this s)) ∧
  recursivePins (this s') = recursivePins (afterRm keys recursive (this s)) ∧
  DAGNode_create [] [dl; rl] = Returns (node root) ∧
  _linkCache (this s') = _linkCache (this s).
Proof.
  intros Hd Hr Hrun.
  destruct (decide (keys = [])) as [-> | Hne]; [done|].
  rewrite rmPins_run in Hrun by done.
  destruct (_flushPins _) as [[root'|e|e] s1] eqn:Hflush; simpl in Hrun;
    [|done..].
  injection Hrun as -> <-. simpl.
  pose proof (afterRm_linkCache keys recursive (this s)) as Hcache.
  destruct (flushPins_cached
              (flushing (afterRm keys recursive (this s)) s) root s1 dl rl
              ltac:(unfold flushing; cbn [this]; by rewrite Hcache)
              ltac:(unfold flushing; cbn [this]; by rewrite Hcache) Hflush)
    as [Hn Hthis].
  rewrite Hthis. unfold flushing. cbn [this]. by rewrite Hcache.
Qed.

End CachedLinks.

(** ** Pin-type validation, continued *)

(** What [checkPinType] does with every value: it accepts exactly the
    four type names; any other value whose string conversion succeeds
    gets the error coded [ERR_INVALID_PIN_TYPE] whose message quotes the
    value; for a value whose string conversion throws, the call throws
    what the conversion threw. *)
Lemma checkPinType_cases (v : JsValue) :
  (checkPinType v = Returns None ↔ v ∈ validPinTypes) ∧
  (v ∉ validPinTypes → ∀ shown, ToString v = Returns shown →
     checkPinType v =
       Returns (Some (mkError
         ("Invalid type '" +:+ shown +:+
          "', must be one of {direct, indirect, recursive, all}")
         (Some "ERR_INVALID_PIN_TYPE")))) ∧
  (v ∉ validPinTypes → ∀ e, ToString v = Throws e →
     checkPinType v = Throws e).
Proof.
  split_and!.
  - split; [|apply checkPinType_valid].
    intros Hok. destruct (includes PinTypes.keys v) eqn:Hi;
      [by apply includes_keys_valid|].
    assert (v ∉ validPinTypes) as Hv.
    { intros Hv. apply includes_keys_valid in Hv. congruence. }
    rewrite (checkPinType_invalid v Hv) in Hok. unfold invalidPinTypeErr in Hok.
    by destruct (ToString v).
  - intros Hv shown Hshown. rewrite (checkPinType_invalid v Hv).
    unfold invalidPinTypeErr. by rewrite Hshown.
  - intros Hv e He. rewrite (checkPinType_invalid v Hv).
    unfold invalidPinTypeErr. by rewrite He.
Qed.

(** C7, where the code departs from it.  Handed a symbol, which is not
    a string, [checkPinType] does not hand back the error coded
    [ERR_INVALID_PIN_TYPE]: building the message throws a [TypeError]
    first. *)
Theorem checkPinType_symbol_throws :
  typeof (JsSymbol "pin") ≠ "string" ∧
  checkPinType (JsSymbol "pin") =
    Throws (Error "Cannot convert a Symbol value to a string") ∧
  ¬ ∃ err, checkPinType (JsSymbol "pin") = Returns (Some err).
Proof.
  split_and!; [done | reflexivity |]. intros [err Herr]. discriminate Herr.
Qed.

(** ** Taking a successful run apart *)

Section Inversion.
Context {World Link : Type}.
Implicit Types (s : State World Link).

Local Abbreviation Async := (@Async World Link).

Lemma bind_Ok {A B} (m : Async A) (k : A → Async B) s (b : B) s' :
  (m ≫= k) s = (Ok b, s') →
  ∃ a s1, m s = (Ok a, s1) ∧ k a s1 = (Ok b, s').
Proof.
  unfold mbind, Async_bind. destruct (m s) as [[a|e|e] s1] eqn:E; [|done..].
  intros Hk. by exists a, s1.
Qed.

Lemma par_Ok {A B} (t1 : Async A) (t2 : Async B) s (ab : A * B) s' :
  par t1 t2 s = (Ok ab, s') →
  ∃ s1, t1 s = (Ok ab.1, s1) ∧ t2 s1 = (Ok ab.2, s').
Proof.
  unfold par. destruct (t1 s) as [[a|e|e] s1] eqn:E1; [| |done].
  - destruct (t2 s1) as [[b|e|e] s2] eqn:E2; [|done..].
    intros [= <- <-]. by exists s1.
  - by destruct (t2 s1) as [[b|e'|e'] s2].
Qed.

Lemma call_Ok {A} (f : World → Outcome A * World) s (a : A) s' :
  call f s = (Ok a, s') →
  f (world s) = (Ok a, world s') ∧ this s' = this s ∧ trace s' = trace s.
Proof.
  unfold call. destruct (f (world s)) as [r w] eqn:E. by intros [= -> <-].
Qed.

Lemma sync_Ok {A} (x : Sync A) s (a : A) s' :
  sync x s = (Ok a, s') → x = Returns a ∧ s' = s.
Proof. unfold sync. destruct x; [|done]. by intros [= -> <-]. Qed.

Lemma caught_Ok {A} (x : Sync A) s (a : A) s' :
  caught x s = (Ok a, s') → x = Returns a ∧ s' = s.
Proof. unfold caught. destruct x; [|done]. by intros [= -> <-]. Qed.

Lemma getThis_Ok s (p : PinManager Link) s' :
  getThis s = (Ok p, s') → p = this s ∧ s' = s.
Proof. by intros [= <- <-]. Qed.

Lemma observe_Ok {A} (f : World → A) s (a : A) s' :
  observe f s = (Ok a, s') → a = f (world s) ∧ s' = s.
Proof. by intros [= <- <-]. Qed.

End Inversion.

(** ** What a successful flush has done *)

Section FlushContract.
Context {World Node CID Link : Type}.
Context `{C : !Collaborators World Node CID Link}.
Implicit Types (s : State World Link) (p : PinManager Link) (w : World).

Lemma flushDirectLink_Ok (dLink : option Link) s (l : Link) s1 :
  flushDirectLink dLink s = (Ok l, s1) →
  trace s1 = trace s ∧ pins (this s1) = pins (this s) ∧
  match dLink with
  | Some l0 => l = l0 ∧ s1 = s
  | None =>
      _linkCache (this s1) = <["direct" := l]> (_linkCache (this s)) ∧
      ∃ keys, directKeys (this s) = Returns keys ∧
              encodes "direct" keys l (world s) (world s1)
  end.
Proof.
  destruct dLink as [l0|]; simpl.
  { by intros [= <- <-]. }
  intros H.
  apply bind_Ok in H as (p & s2 & [-> ->]%getThis_Ok & H).
  apply bind_Ok in H as (keys & s2 & [Hkeys ->]%sync_Ok & H).
  apply bind_Ok in H as (res & s2 & (Hstore & Hthis & Htrace)%call_Ok & H).
  apply bind_Ok in H as (l' & s3 & [Hlink ->]%caught_Ok & H).
  revert H. run. intros [= <- <-]. simpl.
  rewrite Hthis, Htrace. split_and!; [done..|].
  exists keys. split; [done|]. exists res.1, res.2.
  by destruct res.
Qed.

Lemma flushRecursiveLink_Ok (rLink : option Link) s (l : Link) s1 :
  flushRecursiveLink rLink s = (Ok l, s1) →
  trace s1 = trace s ∧ pins (this s1) = pins (this s) ∧
  match rLink with
  | Some l0 => l = l0 ∧ s1 = s
  | None =>
      _linkCache (this s1) = <["recursive" := l]> (_linkCache (this s)) ∧
      ∃ keys, recursiveKeys (this s) = Returns keys ∧
              encodes "recursive" keys l (world s) (world s1)
  end.
Proof.
  destruct rLink as [l0|]; simpl.
  { by intros [= <- <-]. }
  intros H.
  apply bind_Ok in H as (p & s2 & [-> ->]%getThis_Ok & H).
  apply bind_Ok in H as (keys & s2 & [Hkeys ->]%sync_Ok & H).
  apply bind_Ok in H as (res & s2 & (Hstore & Hthis & Htrace)%call_Ok & H).
  apply bind_Ok in H as (l' & s3 & [Hlink ->]%caught_Ok & H).
  revert H. run. intros [= <- <-]. simpl.
  rewrite Hthis, Htrace. split_and!; [done..|].
  exists keys. split; [done|]. exists res.1, res.2.
  by destruct res.
Qed.

Lemma recursiveKeys_pins p p' :
  pins p = pins p' → recursiveKeys p = recursiveKeys p'.
Proof. unfold pins, recursiveKeys. by intros [= _ ->]. Qed.

Lemma flushPins_inversion s (root : Root Node) s' :
  _flushPins s = (Ok root, s') →
  ∃ dl rl,
    _linkCache (this s') =
      <["recursive" := rl]> (<["direct" := dl]> (_linkCache (this s))) ∧
    (∀ l, _linkCache (this s) !! "direct" = Some l → dl = l) ∧
    (∀ l, _linkCache (this s) !! "recursive" = Some l → rl = l) ∧
    (_linkCache (this s) !! "direct" = None →
       ∃ keys w w', directKeys (this s) = Returns keys ∧
                    encodes "direct" keys dl w w') ∧
    (_linkCache (this s) !! "recursive" = None →
       ∃ keys w w', recursiveKeys (this s) = Returns keys ∧
                    encodes "recursive" keys rl w w') ∧
    DAGNode_create [] [dl; rl] = Returns (node root) ∧
    (∃ c w w', dag_put (node root) w = (Ok c, w') ∧
               multihash root = CID_buffer c) ∧
    (∃ w, datastore_put PIN_DS_KEY (multihash root) w = (Ok tt, world s')) ∧
    directPins (this s') = directPins (this s) ∧
    recursivePins (this s') = recursivePins (this s).
Proof.
  intros H. pose proof (keepsPins_flushPins _ _ _ H) as [= Hdp Hrp].
  unfold _flushPins in H.
  apply bind_Ok in H as (p & s0 & [-> ->]%getThis_Ok & H).
  apply bind_Ok in H as (links & s3 & Hpar & H).
  apply par_Ok in Hpar as (s1 & Hd & Hpar).
  apply par_Ok in Hpar as (s2 & Hr & Hempty).
  apply flushDirectLink_Ok in Hd as (_ & Hpins1 & Hd).
  apply flushRecursiveLink_Ok in Hr as (_ & _ & Hr).
  apply bind_Ok in Hempty as (empty & s2' & [_ ->]%caught_Ok & Hempty).
  apply call_Ok in Hempty as (_ & Hthis3 & _).
  apply bind_Ok in H as (n & s3' & [Hnode ->]%caught_Ok & H).
  apply bind_Ok in H as (cid & s4 & (Hput & Hthis4 & _)%call_Ok & H).
  apply bind_Ok in H as (closed & s4' & [_ ->]%observe_Ok & H).
  apply bind_Ok in H as ([] & s5 & Hopen & H).
  assert (this s5 = this s4) as Hthis5.
  { destruct closed.
    - by apply call_Ok in Hopen as (_ & ? & _).
    - by injection Hopen as <-. }
  apply bind_Ok in H as ([] & s6 & (Hds & Hthis6 & _)%call_Ok & H).
  revert H. run. intros [= <- <-]. simpl in *.
  exists links.1, links.2.1.
  assert (_linkCache (this s2) =
            <["recursive" := links.2.1]>
              (<["direct" := links.1]> (_linkCache (this s)))) as Hcache.
  { destruct (_linkCache (this s) !! "direct") as [dl0|] eqn:Ed.
    - destruct Hd as [-> ->]. rewrite (insert_id _ _ _ Ed).
      destruct (_linkCache (this s) !! "recursive") as [rl0|] eqn:Er.
      + destruct Hr as [-> ->]. by rewrite (insert_id _ _ _ Er).
      + by destruct Hr as [-> _].
    - destruct Hd as [Hc1 _].
      destruct (_linkCache (this s) !! "recursive") as [rl0|] eqn:Er.
      + destruct Hr as [-> ->]. rewrite Hc1. symmetry. apply insert_id.
        by rewrite lookup_insert_ne.
      + destruct Hr as [-> _]. by rewrite Hc1. }
  assert (this s6 = this s2) as Hthis by congruence.
  rewrite Hthis in Hdp, Hrp |- *.
  split_and!; [done | | | | | done | | | done | done].
  - intros l Hl. rewrite Hl in Hd. by destruct Hd.
  - intros l Hl. rewrite Hl in Hr. by destruct Hr.
  - intros Hl. rewrite Hl in Hd. destruct Hd as (_ & keys & Hk & He).
    by exists keys, (world s), (world s1).
  - intros Hl. rewrite Hl in Hr. destruct Hr as (_ & keys & Hk & He).
    exists keys, (world s1), (world s2). split; [|done].
    by rewrite <- (recursiveKeys_pins _ _ Hpins1).
  - by exists cid, (world s3), (world s4).
  - by exists (world s5).
Qed.

(** After a successful flush both links are in the cache, and nothing
    else in the cache has changed; a link that was cached before is the
    one used, and a link that was not is the one made for the buffers of
    the current members of its set.  The root handed back was created
    from the two links, direct first; its multihash is the buffer of the
    address [dag.put] gave for it, and the last step stored that
    multihash under the root key.  The two sets are as they were. *)
Theorem flushPins_postcondition s (root : Root Node) s' :
  _flushPins s = (Ok root, s') →
  ∃ dl rl,
    _linkCache (this s') =
      <["recursive" := rl]> (<["direct" := dl]> (_linkCache (this s))) ∧
    (∀ l, _linkCache (this s) !! "direct" = Some l → dl = l) ∧
    (∀ l, _linkCache (this s) !! "recursive" = Some l → rl = l) ∧
    (_linkCache (this s) !! "direct" = None →
       ∃ keys w w', directKeys (this s) = Returns keys ∧
                    encodes "direct" keys dl w w') ∧
    (_linkCache (this s) !! "recursive" = None →
       ∃ keys w w', recursiveKeys (this s) = Returns keys ∧
                    encodes "recursive" keys rl w w') ∧
    DAGNode_create [] [dl; rl] = Returns (node root) ∧
    (∃ c w w', dag_put (node root) w = (Ok c, w') ∧
               multihash root = CID_buffer c) ∧
    (∃ w, datastore_put PIN_DS_KEY (multihash root) w = (Ok tt, world s')) ∧
    directPins (this s') = directPins (this s) ∧
    recursivePins (this s') = recursivePins (this s).
Proof. apply flushPins_inversion. Qed.

End FlushContract.

(** ** Flush, then load *)

Section FlushThenLoad.
Context {World Node CID Link : Type}.
Context `{C : !Collaborators World Node CID Link}.
Implicit Types (s : State World Link) (p : PinManager Link) (w : World).
Implicit Types (k : string).

Lemma later_trans w1 w2 w3 : later w1 w2 → later w2 w3 → later w1 w3.
Proof.
  induction 1 as [w | keys label w r wa w' Hstep _ IH
                  | n w r wa w' Hstep _ IH | w r wa w' Hstep _ IH
                  | k v w r wa w' Hstep _ IH]; intros Hrest; [done | ..].
  - eapply later_storeSet; [exact Hstep | by apply IH].
  - eapply later_dag_put; [exact Hstep | by apply IH].
  - eapply later_repo_open; [exact Hstep | by apply IH].
  - eapply later_datastore_put; [exact Hstep | by apply IH].
Qed.

Lemma encodes_later (label : string) (keys : list Buffer) (l : Link) w w' :
  encodes label keys l w w' → later w w'.
Proof.
  intros (nd & cd & Hstore & _).
  eapply later_storeSet; [exact Hstore | apply later_now].
Qed.

(** The writes of a successful flush, in their order, with the worlds
    between them. *)
Lemma flushPins_chain s (root : Root Node) s' :
  _flushPins s = (Ok root, s') →
  ∃ dl rl wa wb wc c wd we,
    match _linkCache (this s) !! "direct" with
    | Some l => dl = l ∧ wa = world s
    | None => ∃ keys, directKeys (this s) = Returns keys ∧
                      encodes "direct" keys dl (world s) wa
    end ∧
    match _linkCache (this s) !! "recursive" with
    | Some l => rl = l ∧ wb = wa
    | None => ∃ keys, recursiveKeys (this s) = Returns keys ∧
                      encodes "recursive" keys rl wa wb
    end ∧
    later wb wc ∧
    DAGNode_create [] [dl; rl] = Returns (node root) ∧
    dag_put (node root) wc = (Ok c, wd) ∧
    multihash root = CID_buffer c ∧
    (if repo_closed wd then repo_open wd = (Ok tt, we) else we = wd) ∧
    datastore_put PIN_DS_KEY (multihash root) we = (Ok tt, world s').
Proof.
  intros H. unfold _flushPins in H.
  apply bind_Ok in H as (p & s0 & [-> ->]%getThis_Ok & H).
  apply bind_Ok in H as (links & s3 & Hpar & H).
  apply par_Ok in Hpar as (s1 & Hd & Hpar).
  apply par_Ok in Hpar as (s2 & Hr & Hempty).
  apply flushDirectLink_Ok in Hd as (_ & Hpins1 & Hd).
  apply flushRecursiveLink_Ok in Hr as (_ & _ & Hr).
  apply bind_Ok in Hempty as (empty & s2' & [_ ->]%caught_Ok & Hempty).
  apply call_Ok in Hempty as (Hput0 & _ & _).
  apply bind_Ok in H as (n & s3' & [Hnode ->]%caught_Ok & H).
  apply bind_Ok in H as (cid & s4 & (Hput & _ & _)%call_Ok & H).
  apply bind_Ok in H as (closed & s4' & [Hclosed ->]%observe_Ok & H).
  apply bind_Ok in H as ([] & s5 & Hopen & H).
  apply bind_Ok in H as ([] & s6 & (Hds & _ & _)%call_Ok & H).
  revert H. run. intros [= <- <-]. simpl in *.
  exists links.1, links.2.1, (world s1), (world s2), (world s3), cid,
    (world s4), (world s5).
  split_and!; [| | | done | done | done | | done].
  - destruct (_linkCache (this s) !! "direct") as [l|].
    + by destruct Hd as [-> ->].
    + by destruct Hd as [_ Hd].
  - destruct (_linkCache (this s) !! "recursive") as [l|].
    + by destruct Hr as [-> ->].
    + destruct Hr as (_ & keys & Hk & He). exists keys. split; [|done].
      by rewrite <- (recursiveKeys_pins _ _ Hpins1).
  - eapply later_dag_put; [exact Hput0 | apply later_now].
  - subst closed. destruct (repo_closed (world s4)).
    + by apply call_Ok in Hopen as (Ho & _ & _).
    + by injection Hopen as <-.
Qed.

(** C5, as the code has it.  Take a manager whose keys are all
    canonical, and in whose cache a link, if there is one, is current:
    made for the buffers of the members its set has now.  Let the
    stores give back what was written to them and the codec's [loadSet]
    invert its [storeSet].  Then after a flush that succeeds, [load] on
    a manager just constructed over the world the flush left succeeds,
    and its two sets have exactly the members the flushed sets had. *)
Theorem flush_then_load_roundtrip s (root : Root Node) s1
    (dbufs rbufs : list Buffer) (t : list Event) :
  storesGiveBack →
  loadSetInvertsStoreSet →
  (∀ k, k ∈ directPins (this s) → canonical k) →
  (∀ k, k ∈ recursivePins (this s) → canonical k) →
  directKeys (this s) = Returns dbufs →
  recursiveKeys (this s) = Returns rbufs →
  current "direct" dbufs (_linkCache (this s)) (world s) →
  current "recursive" rbufs (_linkCache (this s)) (world s) →
  _flushPins s = (Ok root, s1) →
  (load (mkState constructor (world s1) t)).1 = Ok tt ∧
  (∀ k, k ∈ directPins (this (load (mkState constructor (world s1) t)).2)
        ↔ k ∈ directPins (this s)) ∧
  (∀ k, k ∈ recursivePins (this (load (mkState constructor (world s1) t)).2)
        ↔ k ∈ recursivePins (this s)).
Proof.
  intros (Hdag & Hrepo & Hstore) Hcodec Hdcan Hrcan Hdk Hrk Hdcur Hrcur
    Hflush.
  apply flushPins_chain in Hflush
    as (dl & rl & wa & wb & wc & c & wd & we &
        Hd & Hr & Hbc & Hnode & Hput & Hmh & Hopen & Hds).
  assert (later (world s) wa ∧
          ∃ w0 w1, encodes "direct" dbufs dl w0 w1 ∧ later w1 wa)
    as (Hsa & wd0 & wd1 & Hdenc & Hdlater).
  { destruct (_linkCache (this s) !! "direct") as [l|] eqn:El.
    - destruct Hd as [-> ->]. split; [apply later_now|].
      by apply Hdcur.
    - destruct Hd as (keys & Hkeys & Henc).
      assert (keys = dbufs) as -> by congruence.
      split; [by apply encodes_later in Henc|].
      exists (world s), wa. split; [done | apply later_now]. }
  assert (later wa wb ∧
          ∃ w0 w1, encodes "recursive" rbufs rl w0 w1 ∧ later w1 wb)
    as (Hab & wr0 & wr1 & Hrenc & Hrlater).
  { destruct (_linkCache (this s) !! "recursive") as [l|] eqn:El.
    - destruct Hr as [-> ->]. split; [apply later_now|].
      destruct (Hrcur l El) as (w0 & w1 & Henc & Hl).
      exists w0, w1. split; [done|]. by apply (later_trans _ (world s)).
    - destruct Hr as (keys & Hkeys & Henc).
      assert (keys = rbufs) as -> by congruence.
      split; [by apply encodes_later in Henc|].
      exists wa, wb. split; [done | apply later_now]. }
  assert (later wd (world s1)) as Hdend.
  { apply (later_trans _ we).
    - destruct (repo_closed wd).
      + eapply later_repo_open; [exact Hopen | apply later_now].
      + subst we. apply later_now.
    - eapply later_datastore_put; [exact Hds | apply later_now]. }
  assert (later wb (world s1)) as Hbend.
  { apply (later_trans _ wc); [done|].
    eapply later_dag_put; [exact Hput | done]. }
  destruct (Hcodec dbufs rbufs dl rl wd0 wd1 wr0 wr1 (node root)
              (world s1) Hdenc Hrenc Hnode)
    as (rbufs' & dbufs' & Hlr & Hld & Hrsame & Hdsame).
  { apply (later_trans _ wa); [done|]. by apply (later_trans _ wb). }
  { by apply (later_trans _ wb). }
  assert (readsBack (world s1) root dbufs' rbufs') as Hback.
  { destruct (Hstore _ _ _ Hds) as (Hsame & Hhas & Hget).
    destruct (Hdag _ _ _ _ _ Hput Hdend) as (c' & Hc' & Hgot).
    unfold readsBack. split_and!; [| done | done | | done | done].
    - rewrite Hsame. destruct (repo_closed wd) eqn:Hcl.
      + by apply (Hrepo wd).
      + by subst we.
    - exists c'. by rewrite Hmh. }
  destruct (canonical_members _ _ dbufs' Hdk Hdcan Hdsame)
    as (d & Hdmap & Hdmem).
  destruct (canonical_members _ _ rbufs' Hrk Hrcan Hrsame)
    as (r & Hrmap & Hrmem).
  rewrite (load_readsBack constructor (world s1) t root dbufs' rbufs'
             d r Hback Hdmap Hrmap).
  simpl. split_and!; [done | |].
  - intros k. by rewrite elem_of_ofList.
  - intros k. by rewrite elem_of_ofList.
Qed.

End FlushThenLoad.

(** ** What adding and removing do to the sets *)

Section SetEffects.
Context {World Node CID Link : Type}.
Context `{C : !Collaborators World Node CID Link}.
Implicit Types (s : State World Link) (p : PinManager Link).
Implicit Types (keys : list string) (ref : PinSetRef) (x k : string).

Lemma rmPins_pins keys (recursive : bool) s :
  pins (this (rmPins keys recursive s).2) =
    pins (afterRm keys recursive (this s)).
Proof.
  destruct (decide (keys = [])) as [-> | Hne]; [done|].
  rewrite rmPins_run by done.
  destruct (released _) as [r s'] eqn:Hrel. simpl.
  rewrite (released_pins _ _ _ Hrel).
  destruct (_flushPins _) as [o s1] eqn:Hf. simpl.
  apply (keepsPins_flushPins _ _ _ Hf).
Qed.

Lemma afterRm_direct keys p :
  recursivePins (afterRm keys false p) = recursivePins p ∧
  ∀ x, x ∈ directPins (afterRm keys false p) ↔ x ∈ directPins p ∧ x ∉ keys.
Proof.
  unfold afterRm. revert p. induction keys as [|k keys IH]; intros p; simpl.
  - split; [done|]. intros x. rewrite elem_of_nil. tauto.
  - destruct (IH (rmPin false p k)) as [Hr Hd]. split; [done|].
    intros x. rewrite Hd. unfold rmPin. simpl.
    rewrite JsSet_elem_of_delete, not_elem_of_cons. tauto.
Qed.

Lemma rmPin_recursive p k x :
  x ∈ recursivePins (rmPin true p k) ↔ x ∈ recursivePins p ∧ x ≠ k.
Proof.
  unfold rmPin. simpl. destruct (JsSet.has k (recursivePins p)) eqn:Hk; simpl.
  - rewrite JsSet_elem_of_delete. tauto.
  - apply JsSet_has_false in Hk. split; [|tauto].
    intros Hx. split; [done|]. by intros ->.
Qed.

Lemma rmPin_direct p k x :
  x ∈ directPins (rmPin true p k) ↔
  x ∈ directPins p ∧ ¬ (x = k ∧ k ∉ recursivePins p).
Proof.
  unfold rmPin. simpl. destruct (JsSet.has k (recursivePins p)) eqn:Hk; simpl.
  - apply JsSet_has_true in Hk. tauto.
  - apply JsSet_has_false in Hk. rewrite JsSet_elem_of_delete. tauto.
Qed.

Lemma afterRm_recursive keys p :
  (∀ x, x ∈ recursivePins (afterRm keys true p) ↔
        x ∈ recursivePins p ∧ x ∉ keys) ∧
  (∀ x, x ∈ directPins (afterRm keys true p) → x ∈ directPins p) ∧
  (NoDup keys →
   ∀ x, x ∈ directPins (afterRm keys true p) ↔
        x ∈ directPins p ∧ ¬ (x ∈ keys ∧ x ∉ recursivePins p)).
Proof.
  unfold afterRm. revert p. induction keys as [|k keys IH]; intros p; simpl.
  - split_and!; [| done |]; intros; rewrite elem_of_nil; tauto.
  - destruct (IH (rmPin true p k)) as (Hr & Hsub & Hd). split_and!.
    + intros x. rewrite Hr, rmPin_recursive, not_elem_of_cons. tauto.
    + intros x Hx. apply Hsub in Hx. apply rmPin_direct in Hx. tauto.
    + intros [Hk Hnd]%NoDup_cons x. rewrite (Hd Hnd), rmPin_direct.
      rewrite rmPin_recursive, elem_of_cons.
      destruct (decide (k ∈ recursivePins p));
        destruct (decide (x ∈ recursivePins p));
        destruct (decide (x = k)) as [Heq | Hne]; try subst x; tauto.
Qed.

(** Whatever [_addPins] reports, the set it was handed then has the
    members it had and the given keys, and no others; the other set is
    as it was; and a set without repeated members stays so. *)
Theorem addPins_effect keys ref (pinType : string) s :
  (∀ x, x ∈ pinSetOf ref (this (_addPins keys ref pinType s).2) ↔
        x ∈ keys ∨ x ∈ pinSetOf ref (this s)) ∧
  (∀ other, other ≠ ref →
     pinSetOf other (this (_addPins keys ref pinType s).2) =
       pinSetOf other (this s)) ∧
  (NoDup (pinSetOf ref (this s)) →
   NoDup (pinSetOf ref (this (_addPins keys ref pinType s).2))).
Proof.
  destruct (_addPins keys ref pinType s) as [r s'] eqn:Hrun. simpl.
  pose proof (_addPins_pins _ _ _ _ _ _ Hrun) as Hpins.
  destruct (pins_afterAdd keys ref pinType (this s)) as [Hset Hother].
  split_and!.
  - intros x. by apply (elem_of_after_addPins _ _ _ _ _ _ x Hrun).
  - intros other Ho. rewrite (pinSetOf_pins other _ _ Hpins). by apply Hother.
  - intros Hnd. rewrite (pinSetOf_pins ref _ _ Hpins), Hset.
    by apply JsSet_addAll_NoDup.
Qed.

(** Adding the same keys to the same set a second time, after the
    first call has called back and so given the lock back, finds nothing
    new: it calls back with the empty list and flushes nothing, whether
    the first call had succeeded or had handed on an error of its
    flush. *)
Theorem addPins_again_is_noop keys ref (pinType pinType' : string) s :
  calledBack (_addPins keys ref pinType s).1 →
  _addPins keys ref pinType' (_addPins keys ref pinType s).2 =
    (Ok (NothingNew []),
     afterLock WriteLock (_addPins keys ref pinType s).2).
Proof.
  intros _.
  destruct (_addPins keys ref pinType s) as [r s'] eqn:Hrun. simpl.
  rewrite _addPins_run.
  assert (newKeys keys ref (this s') = []) as ->; [|done].
  apply newKeys_nil. intros k Hk.
  apply (elem_of_after_addPins _ _ _ _ _ _ k Hrun). by left.
Qed.

(** Whatever [rmPins] reports.  Called with [recursive] false it leaves
    in the direct set the members that are not among the keys, and the
    recursive set as it was.  Called with [recursive] true it leaves in
    the recursive set the members that are not among the keys, and takes
    nothing into the direct set; when no key is given twice, a member of
    the direct set is gone exactly if it is a key that was not a member
    of the recursive set. *)
Theorem rmPins_effect keys s :
  recursivePins (this (rmPins keys false s).2) = recursivePins (this s) ∧
  (∀ x, x ∈ directPins (this (rmPins keys false s).2) ↔
        x ∈ directPins (this s) ∧ x ∉ keys) ∧
  (∀ x, x ∈ recursivePins (this (rmPins keys true s).2) ↔
        x ∈ recursivePins (this s) ∧ x ∉ keys) ∧
  (∀ x, x ∈ directPins (this (rmPins keys true s).2) →
        x ∈ directPins (this s)) ∧
  (NoDup keys →
   ∀ x, x ∈ directPins (this (rmPins keys true s).2) ↔
        x ∈ directPins (this s) ∧
        ¬ (x ∈ keys ∧ x ∉ recursivePins (this s))).
Proof.
  pose proof (rmPins_pins keys false s) as [= Hd Hr].
  pose proof (rmPins_pins keys true s) as [= Hd' Hr'].
  rewrite Hd, Hr, Hd', Hr'.
  destruct (afterRm_direct keys (this s)) as [H1 H2].
  destruct (afterRm_recursive keys (this s)) as (H3 & H4 & H5).
  done.
Qed.

(** Pinning keys directly and then removing them leaves in the direct
    set the members it had before that are not among the keys; pinning
    keys recursively and then removing them with [recursive] true does
    the same for the recursive set.  The add is one that called back,
    and so gave the lock back before the remove; this is so whether it
    or the remove succeeded or handed on an error of its flush. *)
Theorem add_then_rm keys s :
  (calledBack (addDirectPins keys s).1 →
   ∀ x, x ∈ directPins
          (this (rmPins keys false (addDirectPins keys s).2).2) ↔
        x ∈ directPins (this s) ∧ x ∉ keys) ∧
  (calledBack (addRecursivePins keys s).1 →
   ∀ x, x ∈ recursivePins
          (this (rmPins keys true (addRecursivePins keys s).2).2) ↔
        x ∈ recursivePins (this s) ∧ x ∉ keys).
Proof.
  split; intros _ x.
  - pose proof (rmPins_pins keys false (addDirectPins keys s).2) as [= -> _].
    destruct (afterRm_direct keys (this (addDirectPins keys s).2)) as [_ ->].
    unfold addDirectPins.
    destruct (_addPins keys TheDirectPins "direct" s) as [r s'] eqn:Hrun.
    pose proof (elem_of_after_addPins _ _ _ _ _ _ x Hrun) as Hx.
    simpl in *. tauto.
  - pose proof (rmPins_pins keys true (addRecursivePins keys s).2)
      as [= _ ->].
    destruct (afterRm_recursive keys (this (addRecursivePins keys s).2))
      as [-> _].
    unfold addRecursivePins.
    destruct (_addPins keys TheRecursivePins "recursive" s)
      as [r s'] eqn:Hrun.
    pose proof (elem_of_after_addPins _ _ _ _ _ _ x Hrun) as Hx.
    simpl in *. tauto.
Qed.

End SetEffects.

(** ** A flush that fails, and the string a query looks up *)

Section Divergence.
Context {World Node CID Link : Type}.
Context `{C : !Collaborators World Node CID Link}.
Implicit Types (s : State World Link) (p : PinManager Link).
Implicit Types (keys : list string) (ref : PinSetRef) (x k : string).

Lemma newKeys_cons keys ref p k :
  k ∈ keys → k ∉ pinSetOf ref p → newKeys keys ref p ≠ [].
Proof.
  intros Hk Hnew Hnil.
  assert (k ∈ newKeys keys ref p) as Hin by by apply elem_of_newKeys.
  rewrite Hnil in Hin. by apply elem_of_nil in Hin.
Qed.

(** An add with a new key, the flush of which hands an error to its
    callback: the add hands on that error, once the lock is given back,
    and the manager is as the flush left it, with the sets as they were
    made before the flush. *)
Lemma _addPins_flush_fails keys ref (pinType : string) s e sf k :
  k ∈ keys → k ∉ pinSetOf ref (this s) →
  _flushPins (flushing (afterAdd keys ref pinType (this s)) s) = (Err e, sf) →
  _addPins keys ref pinType s =
    (Err e, mkState (this sf) (world sf) (trace sf ++ [Release WriteLock])) ∧
  (∀ x, x ∈ pinSetOf ref (this sf) ↔ x ∈ keys ∨ x ∈ pinSetOf ref (this s)) ∧
  (∀ other, other ≠ ref → pinSetOf other (this sf) = pinSetOf other (this s)).
Proof.
  intros Hk Hnew Hflush.
  pose proof (keepsPins_flushPins _ _ _ Hflush) as Hpins. simpl in Hpins.
  destruct (pins_afterAdd keys ref pinType (this s)) as [Hset Hother].
  split_and!.
  - rewrite _addPins_run.
    destruct (newKeys keys ref (this s)) eqn:E.
    { by destruct (newKeys_cons keys ref (this s) k). }
    by rewrite Hflush.
  - intros x. rewrite (pinSetOf_pins ref _ _ Hpins), Hset.
    rewrite JsSet_elem_of_addAll, elem_of_newKeys.
    destruct (decide (x ∈ pinSetOf ref (this s))); tauto.
  - intros other Ho. rewrite (pinSetOf_pins other _ _ Hpins).
    by apply Hother.
Qed.

Lemma rmPins_flush_fails keys (recursive : bool) s e sf :
  keys ≠ [] →
  _flushPins (flushing (afterRm keys recursive (this s)) s) = (Err e, sf) →
  rmPins keys recursive s =
    (Err e, mkState (this sf) (world sf) (trace sf ++ [Release WriteLock])) ∧
  pins (this sf) = pins (afterRm keys recursive (this s)).
Proof.
  intros Hne Hflush. split.
  - rewrite rmPins_run by done. by rewrite Hflush.
  - apply (keepsPins_flushPins _ _ _ Hflush).
Qed.

(** C9. In [addDirectPins], [addRecursivePins] and [rmPins] the sets are
    changed before [_flushPins] runs, and nothing changes them back.
    Let the one flush such a call makes, from the changed manager and
    under the write lock, hand an error to its callback, leaving state
    [sf].  Then the call hands that same error to its own callback, and
    the state it leaves is [sf] with the lock given back: the flush is
    not run again, and the sets are the changed ones.  After the failed
    add the target set has the members it had and the given keys, and
    the other set is as it was.  After the failed remove with
    [recursive] false the direct set has lost the keys; with [recursive]
    true the recursive set has lost them, and a member of the direct
    set is gone exactly if it is a key that was not a recursive pin,
    when no key is given twice. *)
Theorem failed_flush_leaves_mutation keys s e sf :
  ((∃ k, k ∈ keys ∧ k ∉ directPins (this s)) →
   _flushPins (flushing (afterAdd keys TheDirectPins "direct" (this s)) s) =
     (Err e, sf) →
   addDirectPins keys s =
     (Err e, mkState (this sf) (world sf) (trace sf ++ [Release WriteLock])) ∧
   (∀ x, x ∈ directPins (this sf) ↔ x ∈ keys ∨ x ∈ directPins (this s)) ∧
   recursivePins (this sf) = recursivePins (this s)) ∧
  ((∃ k, k ∈ keys ∧ k ∉ recursivePins (this s)) →
   _flushPins
     (flushing (afterAdd keys TheRecursivePins "recursive" (this s)) s) =
     (Err e, sf) →
   addRecursivePins keys s =
     (Err e, mkState (this sf) (world sf) (trace sf ++ [Release WriteLock])) ∧
   (∀ x, x ∈ recursivePins (this sf) ↔
         x ∈ keys ∨ x ∈ recursivePins (this s)) ∧
   directPins (this sf) = directPins (this s)) ∧
  (keys ≠ [] →
   _flushPins (flushing (afterRm keys false (this s)) s) = (Err e, sf) →
   rmPins keys false s =
     (Err e, mkState (this sf) (world sf) (trace sf ++ [Release WriteLock])) ∧
   (∀ x, x ∈ directPins (this sf) ↔ x ∈ directPins (this s) ∧ x ∉ keys) ∧
   recursivePins (this sf) = recursivePins (this s)) ∧
  (keys ≠ [] →
   _flushPins (flushing (afterRm keys true (this s)) s) = (Err e, sf) →
   rmPins keys true s =
     (Err e, mkState (this sf) (world sf) (trace sf ++ [Release WriteLock])) ∧
   (∀ x, x ∈ recursivePins (this sf) ↔
         x ∈ recursivePins (this s) ∧ x ∉ keys) ∧
   (∀ x, x ∈ directPins (this sf) → x ∈ directPins (this s)) ∧
   (NoDup keys →
    ∀ x, x ∈ directPins (this sf) ↔
         x ∈ directPins (this s) ∧
         ¬ (x ∈ keys ∧ x ∉ recursivePins (this s)))).
Proof.
  split_and!.
  - intros (k & Hk & Hnew) Hflush.
    destruct (_addPins_flush_fails keys TheDirectPins "direct" s e sf k
                Hk Hnew Hflush) as (Hrun & Hset & Hother).
    split_and!; [done | done |]. by apply (Hother TheRecursivePins).
  - intros (k & Hk & Hnew) Hflush.
    destruct (_addPins_flush_fails keys TheRecursivePins "recursive" s e sf k
                Hk Hnew Hflush) as (Hrun & Hset & Hother).
    split_and!; [done | done |]. by apply (Hother TheDirectPins).
  - intros Hne Hflush.
    destruct (rmPins_flush_fails keys false s e sf Hne Hflush)
      as [Hrun [= Hd Hr]].
    destruct (afterRm_direct keys (this s)) as [Hrec Hdir].
    split_and!; [done | | congruence].
    intros x. rewrite Hd. apply Hdir.
  - intros Hne Hflush.
    destruct (rmPins_flush_fails keys true s e sf Hne Hflush)
      as [Hrun [= Hd Hr]].
    destruct (afterRm_recursive keys (this s)) as (Hrec & Hsub & Hdir).
    split_and!; [done | | |].
    + intros x. rewrite Hr. apply Hrec.
    + intros x. rewrite Hd. apply Hsub.
    + intros Hnd x. rewrite Hd. by apply Hdir.
Qed.

(** C10, as the code has it.  [addDirectPins] and [addRecursivePins]
    insert the strings they are given as they are: after the add,
    however it ended, the members of the set are the given strings and
    the members it had, and no other string.  [isPinnedWithType] looks
    up the string [toB58String] makes of its argument.  So the lock-free
    steps find a key that was added exactly if that string is one of
    the strings given or was a member already; the form the key was
    added in plays no other part. *)
Theorem added_key_is_found_by_its_string keys (q : CidSource CID)
    (c : string) s r s' :
  toB58String q = Returns c →
  (addDirectPins keys s = (r, s') →
   (∀ x, x ∈ directPins (this s') ↔ x ∈ keys ∨ x ∈ directPins (this s)) ∧
   (c ∈ keys ∨ c ∈ directPins (this s) →
    isPinnedWithType q "direct" s' =
      (Ok (mkStatus c true (Some (ByType "direct"))), s')) ∧
   ((c ∉ keys) ∧ c ∉ directPins (this s) →
    isPinnedWithType q "direct" s' = (Ok (mkStatus c false None), s'))) ∧
  (addRecursivePins keys s = (r, s') →
   (∀ x, x ∈ recursivePins (this s') ↔
         x ∈ keys ∨ x ∈ recursivePins (this s)) ∧
   (c ∈ keys ∨ c ∈ recursivePins (this s) →
    isPinnedWithType q "recursive" s' =
      (Ok (mkStatus c true (Some (ByType "recursive"))), s')) ∧
   ((c ∉ keys) ∧ c ∉ recursivePins (this s) →
    isPinnedWithType q "recursive" s' = (Ok (mkStatus c false None), s'))).
Proof.
  intros Hc. split; intros Hrun.
  - pose proof (λ x, elem_of_after_addPins _ _ _ _ _ _ x Hrun) as Hin.
    simpl in Hin. split_and!; [done | |].
    + intros Hmem. apply isPinnedWithType_direct_hit; [done | by left |].
      by apply Hin.
    + intros [Hk Hs]. apply isPinnedWithType_direct_miss; [done|].
      rewrite Hin. tauto.
  - pose proof (λ x, elem_of_after_addPins _ _ _ _ _ _ x Hrun) as Hin.
    simpl in Hin. split_and!; [done | |].
    + intros Hmem. apply isPinnedWithType_recursive_hit; [done | by left |].
      by apply Hin.
    + intros [Hk Hs]. apply isPinnedWithType_recursive_miss; [done|].
      rewrite Hin. tauto.
Qed.

End Divergence.

(** ** Adding, and the link of the other set *)

Section AddContract.
Context {World Node CID Link : Type}.
Context `{C : !Collaborators World Node CID Link}.
Implicit Types (s : State World Link) (p : PinManager Link).
Implicit Types (keys : list string) (ref : PinSetRef) (x k : string).

Lemma directKeys_pins p p' :
  pins p = pins p' → directKeys p = directKeys p'.
Proof. unfold pins, directKeys. by intros [= -> _]. Qed.

Lemma released_Ok (o : Outcome (Root Node) * State World Link)
    (root : Root Node) s' :
  released o = (Ok (Flushed root), s') →
  o.1 = Ok root ∧ this s' = this o.2 ∧ world s' = world o.2.
Proof. destruct o as [[root'|e|e] s1]; simpl; [|done..]. by intros [= -> <-]. Qed.

Lemma _addPins_flushed keys ref (pinType : string) s (root : Root Node) s' :
  _addPins keys ref pinType s = (Ok (Flushed root), s') →
  ∃ s1, _flushPins (flushing (afterAdd keys ref pinType (this s)) s) =
          (Ok root, s1) ∧ this s' = this s1 ∧ world s' = world s1.
Proof.
  rewrite _addPins_run. destruct (newKeys keys ref (this s)); [done|].
  intros (Hok & Hthis & Hworld)%released_Ok.
  destruct (_flushPins _) as [o s1]. simpl in *. subst o. by exists s1.
Qed.

(** A successful [addDirectPins] with the recursive link cached leaves
    that link in the cache and builds the root from it: only the direct
    set is encoded again, from the buffers of its members after the add.
    A successful [addRecursivePins] with the direct link cached does the
    same the other way round. *)
Theorem add_reuses_other_link keys s (root : Root Node) s' :
  (∀ rl, _linkCache (this s) !! "recursive" = Some rl →
     addDirectPins keys s = (Ok (Flushed root), s') →
     _linkCache (this s') !! "recursive" = Some rl ∧
     ∃ dl, _linkCache (this s') !! "direct" = Some dl ∧
           DAGNode_create [] [dl; rl] = Returns (node root) ∧
           ∃ bufs w w', directKeys (this s') = Returns bufs ∧
                        encodes "direct" bufs dl w w') ∧
  (∀ dl, _linkCache (this s) !! "direct" = Some dl →
     addRecursivePins keys s = (Ok (Flushed root), s') →
     _linkCache (this s') !! "direct" = Some dl ∧
     ∃ rl, _linkCache (this s') !! "recursive" = Some rl ∧
           DAGNode_create [] [dl; rl] = Returns (node root) ∧
           ∃ bufs w w', recursiveKeys (this s') = Returns bufs ∧
                        encodes "recursive" bufs rl w w').
Proof.
  split.
  - intros rl Hrl Hrun.
    apply _addPins_flushed in Hrun as (s1 & Hflush & Hthis & _).
    pose proof (keepsPins_flushPins _ _ _ Hflush) as Hpins.
    apply flushPins_inversion in Hflush
      as (dl & rl' & Hcache & _ & Hr & Hd & _ & Hnode & _).
    unfold flushing, afterAdd in Hcache, Hr, Hd, Hpins. simpl in *.
    rewrite lookup_delete_ne in Hr by done.
    rewrite (Hr rl Hrl) in *. rewrite Hthis, Hcache.
    split; [by rewrite lookup_insert_eq|]. exists dl. split_and!.
    + rewrite lookup_insert_ne by done. by rewrite lookup_insert_eq.
    + done.
    + destruct Hd as (bufs & w & w' & Hk & He);
        [by rewrite lookup_delete_eq|].
      exists bufs, w, w'. split; [|done].
      by rewrite (directKeys_pins _ _ Hpins).
  - intros dl Hdl Hrun.
    apply _addPins_flushed in Hrun as (s1 & Hflush & Hthis & _).
    pose proof (keepsPins_flushPins _ _ _ Hflush) as Hpins.
    apply flushPins_inversion in Hflush
      as (dl' & rl & Hcache & Hd & _ & _ & Hr & Hnode & _).
    unfold flushing, afterAdd in Hcache, Hr, Hd, Hpins. simpl in *.
    rewrite lookup_delete_ne in Hd by done.
    rewrite (Hd dl Hdl) in *. rewrite Hthis, Hcache.
    split.
    { rewrite lookup_insert_ne by done. by rewrite lookup_insert_eq. }
    exists rl. split_and!.
    + by rewrite lookup_insert_eq.
    + done.
    + destruct Hr as (bufs & w & w' & Hk & He);
        [by rewrite lookup_delete_eq|].
      exists bufs, w, w'. split; [|done].
      by rewrite (recursiveKeys_pins _ _ Hpins).
Qed.

Lemma mapSync_throws {A B} (f : A → Sync B) (xs : list A) (x : A) e0 :
  x ∈ xs → f x = Throws e0 → ∃ e, mapSync f xs = Throws e.
Proof.
  intros Hx Hf. induction xs as [|y xs IH]; [by apply elem_of_nil in Hx|].
  simpl. destruct (f y) as [b|e] eqn:Hy; [|by exists e].
  apply elem_of_cons in Hx as [-> | Hx]; [congruence|].
  destruct (IH Hx) as [e ->]. by exists e.
Qed.

Lemma flushPins_throws_direct s e :
  _linkCache (this s) !! "direct" = None →
  directKeys (this s) = Throws e →
  _flushPins s = (Thrown e, s).
Proof.
  intros Hd Hk. unfold _flushPins, par. run. rewrite Hd. simpl. run.
  by rewrite Hk.
Qed.

Lemma flushPins_throws_recursive s e :
  _linkCache (this s) !! "recursive" = None →
  recursiveKeys (this s) = Throws e →
  ∃ e' s', _flushPins s = (Thrown e', s').
Proof.
  intros Hr Hk. unfold _flushPins. unfold mbind at 1, Async_bind at 1.
  simpl. unfold mbind at 1, Async_bind at 1. unfold par at 1.
  rewrite Hr.
  destruct (flushDirectLink _ s) as [[l|e1|e1] s1] eqn:Hd.
  - pose proof (keeps_pins_flushDirectLink _ _ _ _ Hd) as Hpins.
    unfold par, flushRecursiveLink. run.
    rewrite (recursiveKeys_pins _ _ Hpins), Hk. by eexists _, _.
  - pose proof (keeps_pins_flushDirectLink _ _ _ _ Hd) as Hpins.
    unfold par, flushRecursiveLink. run.
    rewrite (recursiveKeys_pins _ _ Hpins), Hk. by eexists _, _.
  - by eexists _, _.
Qed.

(** A member that [new CID] rejects makes the flush throw.  When a set
    holds such a key and the link of that set is not cached, as it is
    not after [_addPins] has put a key into the set, [_flushPins] throws
    from the synchronous call that turns the members into buffers: it
    ends in an exception and not in an error handed to its callback,
    and the sets are as they were.  For the direct set the exception is
    raised before any collaborator is called: the state is untouched. *)
Theorem flush_throws_on_unparseable_key k s e0 :
  CID_new (FromString k) = Throws e0 →
  (k ∈ directPins (this s) →
   _linkCache (this s) !! "direct" = None →
   ∃ e, _flushPins s = (Thrown e, s)) ∧
  (k ∈ recursivePins (this s) →
   _linkCache (this s) !! "recursive" = None →
   ∃ e s', _flushPins s = (Thrown e, s') ∧
           directPins (this s') = directPins (this s) ∧
           recursivePins (this s') = recursivePins (this s)).
Proof.
  intros Hbad. split; intros Hin Hcache.
  - destruct (mapSync_throws keyBuffer _ k e0 Hin) as [e He].
    { unfold keyBuffer. by rewrite Hbad. }
    exists e. by apply flushPins_throws_direct.
  - destruct (mapSync_throws keyBuffer _ k e0 Hin) as [e He].
    { unfold keyBuffer. by rewrite Hbad. }
    destruct (flushPins_throws_recursive s e Hcache He)
      as (e' & s1 & Hflush).
    exists e', s1. split; [done|].
    by pose proof (keepsPins_flushPins _ _ _ Hflush) as [= -> ->].
Qed.

End AddContract.

(** ** The blocks the pinner uses itself *)

Section InternalBlocks.
Context {World Node CID Link : Type}.
Context `{C : !Collaborators World Node CID Link}.
Implicit Types (s : State World Link) (w : World) (e : JsError).

(** When the datastore reports the root key as not found, by an error
    coded [ERR_NOT_FOUND], [getInternalBlocks] succeeds with the empty
    list: it takes the write lock, logs, and gives the lock back. *)
Theorem getInternalBlocks_without_root s e w' :
  datastore_get PIN_DS_KEY (world s) = (Err e, w') →
  code e = Some "ERR_NOT_FOUND" →
  getInternalBlocks s =
    (Ok [],
     mkState (this s) w'
       (trace s ++ [Acquire WriteLock; Log "No pinned blocks";
                    Release WriteLock])).
Proof.
  intros Hget Hcode. unfold getInternalBlocks. run. rewrite Hget. simpl.
  rewrite Hcode. rewrite bool_decide_eq_true_2 by done. simpl.
  by rewrite <- !app_assoc.
Qed.

(** The three failures [getInternalBlocks] hands on.  Each is a new
    error without a code, whose message names the step and ends with the
    message of the error the collaborator gave: the datastore failing
    with anything but [ERR_NOT_FOUND]; the DAG failing to give the root,
    with whatever code, [ERR_NOT_FOUND] included; the codec failing to
    list its blocks. *)
Theorem getInternalBlocks_wraps_errors s e :
  (∀ w1, datastore_get PIN_DS_KEY (world s) = (Err e, w1) →
     code e ≠ Some "ERR_NOT_FOUND" →
     (getInternalBlocks s).1 =
       Err (mkError ("Could not get pin sets root from datastore: "
                     +:+ message e) None)) ∧
  (∀ mh w1 cid w2,
     datastore_get PIN_DS_KEY (world s) = (Ok mh, w1) →
     CID_new (FromBuffer mh) = Returns cid →
     dag_get cid w1 = (Err e, w2) →
     (getInternalBlocks s).1 =
       Err (mkError ("Could not get pin sets from store: " +:+ message e)
                    None)) ∧
  (∀ mh w1 cid obj w2 w3,
     datastore_get PIN_DS_KEY (world s) = (Ok mh, w1) →
     CID_new (FromBuffer mh) = Returns cid →
     dag_get cid w1 = (Ok obj, w2) →
     pinset_getInternalCids obj w2 = (Err e, w3) →
     (getInternalBlocks s).1 =
       Err (mkError ("Could not get pinner internal cids: " +:+ message e)
                    None)).
Proof.
  split_and!.
  - intros w1 Hget Hcode. unfold getInternalBlocks. run. rewrite Hget. simpl.
    by rewrite bool_decide_eq_false_2.
  - intros mh w1 cid w2 Hget Hcid Hdag. unfold getInternalBlocks. run.
    rewrite Hget. simpl. rewrite Hcid. simpl. by rewrite Hdag.
  - intros mh w1 cid obj w2 w3 Hget Hcid Hdag Hcids.
    unfold getInternalBlocks. run.
    rewrite Hget. simpl. rewrite Hcid. simpl. rewrite Hdag. simpl.
    by rewrite Hcids.
Qed.

(** When the root key is there, its buffer is a CID, the DAG has the
    root under it and the codec lists the blocks of the two pin sets,
    [getInternalBlocks] succeeds with those blocks followed by the CID
    of the root itself, under the write lock and without logging. *)
Theorem getInternalBlocks_appends_root s (mh : Buffer) w1 (cid : CID)
    (obj : Node) w2 (cids : list CID) w3 :
  datastore_get PIN_DS_KEY (world s) = (Ok mh, w1) →
  CID_new (FromBuffer mh) = Returns cid →
  dag_get cid w1 = (Ok obj, w2) →
  pinset_getInternalCids obj w2 = (Ok cids, w3) →
  getInternalBlocks s =
    (Ok (cids ++ [cid]),
     mkState (this s) w3 (trace s ++ [Acquire WriteLock; Release WriteLock])).
Proof.
  intros Hget Hcid Hdag Hcids. unfold getInternalBlocks. run.
  rewrite Hget. simpl. rewrite Hcid. simpl. rewrite Hdag. simpl.
  rewrite Hcids. simpl. by rewrite <- !app_assoc.
Qed.

End InternalBlocks.

(** ** What the queries and the load leave alone *)

Section ReadOnly.
Context {World Node CID Link : Type}.
Context `{C : !Collaborators World Node CID Link}.
Implicit Types (s : State World Link) (p : PinManager Link).

Local Abbreviation Async := (@Async World Link).
Local Abbreviation keeps f m := (@keeps World Link _ _ f m).

Section Keeps.
Context {X : Type} (f : PinManager Link → X).

Lemma keeps_fail {A} (e : JsError) : keeps f (fail (A := A) e).
Proof. intros s r s' [= _ <-]. done. Qed.

Lemma keeps_locked {A} (m : LockMode) (fn : Async A) :
  keeps f fn → keeps f (locked m fn).
Proof.
  intros Hfn s r s'. unfold locked.
  destruct (fn _) as [[a|e|e] s1] eqn:E; intros [= _ <-];
    apply (Hfn _ _ _ E).
Qed.

Lemma keeps_andFinally {A B} (m : Async A) (k : JsError + A → Async B) :
  keeps f m → (∀ r, keeps f (k r)) → keeps f (andFinally m k).
Proof.
  intros Hm Hk s r s'. unfold andFinally.
  destruct (m s) as [[a|e|e] s1] eqn:E; intros Hr.
  - rewrite (Hk _ _ _ _ Hr). eauto.
  - rewrite (Hk _ _ _ _ Hr). eauto.
  - injection Hr as _ <-. eauto.
Qed.

Lemma keeps_mapAsync {A B} (g : A → Async B) (xs : list A) :
  (∀ x, keeps f (g x)) → keeps f (mapAsync g xs).
Proof.
  intros Hg. induction xs as [|x xs IH]; simpl; [apply keeps_ret|].
  apply keeps_bind; [apply Hg | intros y].
  apply keeps_bind; [apply IH | intros ys]. apply keeps_ret.
Qed.

Lemma keeps_eachLimit {A S} (g : A → S → Async S) (xs : list A) (acc : S) :
  (∀ x a, keeps f (g x a)) → keeps f (eachLimit g xs acc).
Proof.
  intros Hg. revert acc. induction xs as [|x xs IH]; intros acc; simpl;
    [apply keeps_ret|].
  apply keeps_bind; [apply Hg | intros acc']. apply IH.
Qed.

Lemma keeps_detectLimit {A} (test : A → Async bool) (xs : list A) :
  (∀ x, keeps f (test x)) → keeps f (detectLimit test xs).
Proof.
  intros Hg. induction xs as [|x xs IH]; simpl; [apply keeps_ret|].
  apply keeps_bind; [apply Hg | intros []]; [apply keeps_ret | apply IH].
Qed.

Lemma keeps_loadRoot : keeps f loadRoot.
Proof.
  unfold loadRoot.
  apply keeps_bind; [apply keeps_observe | intros closed].
  apply keeps_bind.
  { destruct closed; [apply keeps_call | apply keeps_ret]. }
  intros _. apply keeps_bind; [apply keeps_call | intros has].
  apply keeps_bind.
  { destruct has; [apply keeps_ret | apply keeps_fail]. }
  intros _. apply keeps_bind; [apply keeps_call | intros mh].
  apply keeps_bind; [apply keeps_sync | intros c]. apply keeps_call.
Qed.

End Keeps.

Lemma keeps_isPinnedWithType (multihash : CidSource CID) (type : string) :
  keeps id (isPinnedWithType multihash type).
Proof.
  unfold isPinnedWithType.
  apply keeps_bind; [apply keeps_sync | intros key].
  apply keeps_bind; [apply keeps_getThis | intros p].
  repeat (case_match; [apply keeps_ret|]).
  apply keeps_locked.
  apply keeps_bind; [apply keeps_getThis | intros p'].
  apply keeps_bind; [apply keeps_sync | intros buffers].
  apply keeps_bind; [apply keeps_sync | intros cids].
  apply keeps_bind; [|intros cid; apply keeps_ret].
  apply keeps_detectLimit. intros c. unfold isUnder.
  apply keeps_bind; [apply keeps_call | intros n]. apply keeps_call.
Qed.

Lemma keeps_getIndirectKeys : keeps id getIndirectKeys.
Proof.
  unfold getIndirectKeys. apply keeps_locked.
  apply keeps_bind; [apply keeps_getThis | intros p].
  apply keeps_bind; [apply keeps_sync | intros roots].
  apply keeps_bind; [|intros acc; apply keeps_ret].
  apply keeps_eachLimit. intros mh acc. unfold addIndirect.
  apply keeps_bind; [apply keeps_call | intros nodes].
  apply keeps_bind.
  { apply keeps_mapAsync. intros n.
    apply keeps_bind; [apply keeps_sync | intros b]. apply keeps_caught. }
  intros cids. apply keeps_bind; [apply keeps_getThis | intros p'].
  apply keeps_ret.
Qed.

Lemma keeps_getInternalBlocks : keeps id getInternalBlocks.
Proof.
  unfold getInternalBlocks. apply keeps_locked.
  apply keeps_andFinally; [apply keeps_call | intros [err|mh]].
  { case_match; [|apply keeps_fail].
    apply keeps_bind; [apply keeps_log | intros _]. apply keeps_ret. }
  apply keeps_bind; [apply keeps_sync | intros cid].
  apply keeps_andFinally; [apply keeps_call | intros [err|obj]];
    [apply keeps_fail|].
  apply keeps_andFinally; [apply keeps_call | intros [err|cids]];
    [apply keeps_fail | apply keeps_ret].
Qed.

(** The three queries never change the manager, whatever they answer
    and however they fail: the two sets and the link cache are after
    [isPinnedWithType], [getIndirectKeys] and [getInternalBlocks] what
    they were before. *)
Theorem queries_keep_manager (multihash : CidSource CID) (type : string) s :
  this (isPinnedWithType multihash type s).2 = this s ∧
  this (getIndirectKeys s).2 = this s ∧
  this (getInternalBlocks s).2 = this s.
Proof.
  split_and!.
  - destruct (isPinnedWithType multihash type s) as [r s'] eqn:E.
    apply (keeps_isPinnedWithType _ _ _ _ _ E).
  - destruct (getIndirectKeys s) as [r s'] eqn:E.
    apply (keeps_getIndirectKeys _ _ _ E).
  - destruct (getInternalBlocks s) as [r s'] eqn:E.
    apply (keeps_getInternalBlocks _ _ _ E).
Qed.

Lemma keeps_modify {X A} (f : PinManager Link → X)
    (g : PinManager Link → PinManager Link) (rest : Async A) :
  (∀ p, f (g p) = f p) → keeps f rest →
  keeps f (p ← getThis; setThis (g p);; rest).
Proof.
  intros Hg Hrest s r s'. run. intros Hr.
  rewrite (Hrest _ _ _ Hr). simpl. apply Hg.
Qed.

Lemma keeps_linkCache_load : keeps _linkCache load.
Proof.
  unfold load. apply keeps_locked.
  apply keeps_andFinally; [apply keeps_loadRoot | intros [err|pinRoot]].
  { case_match; [apply keeps_log | apply keeps_fail]. }
  apply keeps_bind.
  { apply keeps_par; apply keeps_call. }
  intros keys. apply keeps_bind; [apply keeps_sync | intros d].
  apply (keeps_modify _linkCache (setDirectPins (JsSet.ofList d))); [done|].
  apply keeps_bind; [apply keeps_sync | intros r].
  apply (keeps_modify _linkCache (setRecursivePins (JsSet.ofList r)));
    [done|].
  apply keeps_log.
Qed.

End ReadOnly.

(** ** Loading, continued *)

Section WorldOnly.
Context {World Link : Type}.

Local Abbreviation Async := (@Async World Link).
Local Abbreviation worldOnly m := (@worldOnly World Link _ m).

Lemma worldOnly_ret {A} (a : A) : worldOnly (mret a).
Proof. intros w. by exists (Ok a), w. Qed.

Lemma worldOnly_fail {A} (e : JsError) : worldOnly (fail (A := A) e).
Proof. intros w. by exists (Err e), w. Qed.

Lemma worldOnly_sync {A} (x : Sync A) : worldOnly (sync x).
Proof.
  intros w. destruct x as [a|e]; [by exists (Ok a), w | by exists (Thrown e), w].
Qed.

Lemma worldOnly_observe {A} (f : World → A) : worldOnly (observe f).
Proof. intros w. by exists (Ok (f w)), w. Qed.

Lemma worldOnly_call {A} (f : World → Outcome A * World) :
  worldOnly (call f).
Proof.
  intros w. exists (f w).1, (f w).2. intros p t. unfold call. simpl.
  by destruct (f w).
Qed.

Lemma worldOnly_bind {A B} (m : Async A) (k : A → Async B) :
  worldOnly m → (∀ a, worldOnly (k a)) → worldOnly (m ≫= k).
Proof.
  intros Hm Hk w. destruct (Hm w) as (r & w1 & Hrun).
  unfold mbind, Async_bind. destruct r as [a|e|e].
  - destruct (Hk a w1) as (r2 & w2 & Hrun2). exists r2, w2.
    intros p t. by rewrite Hrun, Hrun2.
  - exists (Err e), w1. intros p t. by rewrite Hrun.
  - exists (Thrown e), w1. intros p t. by rewrite Hrun.
Qed.

Lemma worldOnly_run {A} (m : Async A) (s : State World Link)
    (p : PinManager Link) (t : list Event) :
  worldOnly m →
  m (mkState p (world s) t) =
    ((m s).1, mkState p (world (m s).2) t).
Proof.
  intros Hm. destruct (Hm (world s)) as (r & w' & Hrun).
  rewrite Hrun. destruct s as [p0 w0 t0]. simpl. by rewrite Hrun.
Qed.

End WorldOnly.

Section LoadingMore.
Context {World Node CID Link : Type}.
Context `{C : !Collaborators World Node CID Link}.
Implicit Types (s : State World Link) (p : PinManager Link) (w : World).

Lemma worldOnly_loadRoot : worldOnly (World := World) (Link := Link) loadRoot.
Proof.
  unfold loadRoot.
  apply worldOnly_bind; [apply worldOnly_observe | intros closed].
  apply worldOnly_bind.
  { destruct closed; [apply worldOnly_call | apply worldOnly_ret]. }
  intros _. apply worldOnly_bind; [apply worldOnly_call | intros has].
  apply worldOnly_bind.
  { destruct has; [apply worldOnly_ret | apply worldOnly_fail]. }
  intros _. apply worldOnly_bind; [apply worldOnly_call | intros mh].
  apply worldOnly_bind; [apply worldOnly_sync | intros c].
  apply worldOnly_call.
Qed.

Lemma loadRoot_locked s :
  loadRoot (mkState (this s) (world s) (trace s ++ [Acquire WriteLock])) =
    ((loadRoot s).1,
     mkState (this s) (world (loadRoot s).2)
       (trace s ++ [Acquire WriteLock])).
Proof. apply worldOnly_run, worldOnly_loadRoot. Qed.

(** A [load] that reads the root and decodes both sets replaces the two
    sets by the canonical strings of the decoded keys: what the sets
    held before plays no part, and the link cache is not touched. *)
Theorem load_replaces_sets s (pinRoot : Node) (rKeys dKeys : list Buffer)
    w2 w3 (d r : list string) :
  (loadRoot s).1 = Ok pinRoot →
  pinset_loadSet pinRoot "recursive" (world (loadRoot s).2) = (Ok rKeys, w2) →
  pinset_loadSet pinRoot "direct" w2 = (Ok dKeys, w3) →
  mapSync (λ b, toB58String (FromBuffer b)) dKeys = Returns d →
  mapSync (λ b, toB58String (FromBuffer b)) rKeys = Returns r →
  load s =
    (Ok tt,
     mkState
       (mkPinManager (JsSet.ofList d) (JsSet.ofList r) (_linkCache (this s)))
       w3
       (trace s ++ [Acquire WriteLock; Log "Loaded pins from the datastore";
                    Release WriteLock])) ∧
  (∀ x, x ∈ directPins (this (load s).2) ↔ x ∈ d) ∧
  (∀ x, x ∈ recursivePins (this (load s).2) ↔ x ∈ r).
Proof.
  intros Hroot Hr Hd Hds Hrs.
  assert (load s =
    (Ok tt,
     mkState
       (mkPinManager (JsSet.ofList d) (JsSet.ofList r) (_linkCache (this s)))
       w3
       (trace s ++ [Acquire WriteLock; Log "Loaded pins from the datastore";
                    Release WriteLock]))) as Hload.
  { unfold load, par. run. rewrite loadRoot_locked, Hroot. simpl.
    unfold PinTypes.recursive, PinTypes.direct.
    rewrite Hr. simpl. rewrite Hd. simpl. rewrite Hds. simpl. rewrite Hrs.
    simpl. unfold setRecursivePins, setDirectPins. simpl.
    by rewrite <- !app_assoc. }
  rewrite Hload. simpl. split_and!; [done | |]; intros x; apply elem_of_ofList.
Qed.

(** [load] is not all-or-nothing.  When both sets are decoded but a
    decoded recursive key is not a CID, the conversion throws after the
    direct set has been replaced: the call ends in that exception with
    the new direct set and the old recursive set.  When a decoded direct
    key is not a CID, it throws with both sets as they were. *)
Theorem load_throws_between_sets s (pinRoot : Node)
    (rKeys dKeys : list Buffer) w2 w3 e :
  (loadRoot s).1 = Ok pinRoot →
  pinset_loadSet pinRoot "recursive" (world (loadRoot s).2) = (Ok rKeys, w2) →
  pinset_loadSet pinRoot "direct" w2 = (Ok dKeys, w3) →
  (∀ d, mapSync (λ b, toB58String (FromBuffer b)) dKeys = Returns d →
        mapSync (λ b, toB58String (FromBuffer b)) rKeys = Throws e →
        (load s).1 = Thrown e ∧
        directPins (this (load s).2) = JsSet.ofList d ∧
        recursivePins (this (load s).2) = recursivePins (this s)) ∧
  (mapSync (λ b, toB58String (FromBuffer b)) dKeys = Throws e →
   (load s).1 = Thrown e ∧ this (load s).2 = this s).
Proof.
  intros Hroot Hr Hd. split.
  - intros d Hds Hrs. unfold load, par. run.
    rewrite loadRoot_locked, Hroot. simpl.
    unfold PinTypes.recursive, PinTypes.direct.
    rewrite Hr. simpl. rewrite Hd. simpl. rewrite Hds. simpl. by rewrite Hrs.
  - intros Hds. unfold load, par. run.
    rewrite loadRoot_locked, Hroot. simpl.
    unfold PinTypes.recursive, PinTypes.direct.
    rewrite Hr. simpl. rewrite Hd. simpl. by rewrite Hds.
Qed.

(** When [load] cannot read the root or cannot decode a set, it leaves
    the manager as it was.  A failure to read the root is handed on as
    it is, unless its message is [No pins to load]: then [load] succeeds,
    whichever step the error came from.  A failure of either [loadSet]
    makes [load] fail. *)
Theorem load_failures_keep_manager s :
  (∀ e, (loadRoot s).1 = Err e →
     this (load s).2 = this s ∧
     (message e = "No pins to load" → (load s).1 = Ok tt) ∧
     (message e ≠ "No pins to load" → (load s).1 = Err e)) ∧
  (∀ (pinRoot : Node) o1 w2 o2 w3,
     (loadRoot s).1 = Ok pinRoot →
     pinset_loadSet pinRoot "recursive" (world (loadRoot s).2) = (o1, w2) →
     pinset_loadSet pinRoot "direct" w2 = (o2, w3) →
     failed o1 ∨ failed o2 →
     failed (load s).1 ∧ this (load s).2 = this s).
Proof.
  split.
  - intros e Hroot. unfold load. run. rewrite loadRoot_locked, Hroot. simpl.
    destruct (String.eqb (message e) "No pins to load") eqn:Hmsg; simpl.
    + apply String.eqb_eq in Hmsg. done.
    + apply String.eqb_neq in Hmsg. done.
  - intros pinRoot o1 w2 o2 w3 Hroot Hr Hd Hfail. unfold load, par. run.
    rewrite loadRoot_locked, Hroot. simpl.
    unfold PinTypes.recursive, PinTypes.direct.
    rewrite Hr. simpl. destruct o1 as [rKeys|e1|e1]; simpl.
    + rewrite Hd. simpl. destruct o2 as [dKeys|e2|e2]; simpl; [|done..].
      by destruct Hfail.
    + rewrite Hd. simpl. by destruct o2.
    + done.
Qed.

(** [load] never changes the link cache: a link cached before a load is
    still cached after it, whatever the load read and however it
    ended. *)
Theorem load_keeps_link_cache s :
  _linkCache (this (load s).2) = _linkCache (this s).
Proof.
  destruct (load s) as [r s'] eqn:E. apply (keeps_linkCache_load _ _ _ E).
Qed.

End LoadingMore.

(** ** The query, continued *)

Section QueryMore.
Context {World Node CID Link : Type}.
Context `{C : !Collaborators World Node CID Link}.
Implicit Types (s : State World Link) (w : World) (key : string) (c : CID).



(** An identifier that is in both sets.  Queried with [all] or
    [recursive] it is pinned with reason [recursive]; queried with
    [direct] it is pinned with reason [direct].  None of the three
    answers takes a lock. *)
Theorem isPinnedWithType_in_both_sets (multihash : CidSource CID) key s :
  toB58String multihash = Returns key →
  key ∈ recursivePins (this s) →
  key ∈ directPins (this s) →
  isPinnedWithType multihash "all" s =
    (Ok (mkStatus key true (Some (ByType "recursive"))), s) ∧
  isPinnedWithType multihash "recursive" s =
    (Ok (mkStatus key true (Some (ByType "recursive"))), s) ∧
  isPinnedWithType multihash "direct" s =
    (Ok (mkStatus key true (Some (ByType "direct"))), s).
Proof.
  intros Hkey Hr Hd. split_and!.
  - apply isPinnedWithType_recursive_hit; auto.
  - apply isPinnedWithType_recursive_hit; auto.
  - apply isPinnedWithType_direct_hit; auto.
Qed.

(** With no recursive pin, every query is answered without calling the
    DAG or the codec: the world is left as it was, and the identifier is
    pinned exactly if the type is [direct] or [all] and it is a member
    of the direct set. *)
Theorem isPinnedWithType_without_recursive_pins
    (multihash : CidSource CID) (type : string) key s :
  toB58String multihash = Returns key →
  recursivePins (this s) = JsSet.empty →
  ∃ st s',
    isPinnedWithType multihash type s = (Ok st, s') ∧
    world s' = world s ∧
    (pinned st = true ↔
     (type = "direct" ∨ type = "all") ∧ key ∈ directPins (this s)).
Proof.
  intros Hkey Hempty. unfold isPinnedWithType. run. rewrite Hkey.
  rewrite Hempty. unfold JsSet.has at 1, JsSet.empty.
  rewrite bool_decide_eq_false_2 by apply not_elem_of_nil.
  rewrite andb_false_r.
  unfold PinTypes.recursive, PinTypes.direct, PinTypes.all.
  destruct (String.eqb type "recursive") eqn:Er.
  { apply String.eqb_eq in Er as ->. eexists _, _. split; [done|].
    split; [done|]. simpl. split; [done|]. intros [[|] _]; done. }
  destruct (String.eqb type "direct") eqn:Ed; simpl.
  { apply String.eqb_eq in Ed as ->.
    destruct (JsSet.has key (directPins (this s))) eqn:Hd.
    - apply JsSet_has_true in Hd. eexists _, _. split; [done|]. simpl.
      split; [done|]. split; [auto | done].
    - apply JsSet_has_false in Hd. eexists _, _. split; [done|]. simpl.
      split; [done|]. split; [done | tauto]. }
  destruct (String.eqb type "all") eqn:Ea; simpl.
  { apply String.eqb_eq in Ea as ->.
    destruct (JsSet.has key (directPins (this s))) eqn:Hd.
    - apply JsSet_has_true in Hd. eexists _, _. split; [done|]. simpl.
      split; [done|]. split; [auto | done].
    - apply JsSet_has_false in Hd. unfold recursiveKeys. rewrite Hempty.
      simpl. eexists _, _. split; [done|]. simpl.
      split; [done|]. split; [done | tauto]. }
  apply String.eqb_neq in Ed, Ea.
  unfold recursiveKeys. rewrite Hempty. simpl.
  eexists _, _. split; [done|]. simpl. split; [done|]. split; [done|].
  intros [[|] _]; done.
Qed.

End QueryMore.

(** ** The indirect keys, continued *)

Section IndirectMore.
Context {World Node CID Link : Type}.
Context `{C : !Collaborators World Node CID Link}.
Implicit Types (s : State World Link) (w : World).

Lemma eachLimit_addIndirect_NoDup (roots : list Buffer) (acc : JsSet.t) s
    (acc' : JsSet.t) s' :
  eachLimit addIndirect roots acc s = (Ok acc', s') →
  NoDup acc → NoDup acc'.
Proof.
  revert acc s. induction roots as [|mh roots IH]; intros acc s; simpl.
  - run. by intros [= <- <-].
  - unfold mbind, Async_bind.
    destruct (addIndirect mh acc s) as [[acc1|e|e] s1] eqn:Hadd; [|done..].
    intros Hrest Hnd. apply (IH _ _ Hrest).
    apply addIndirect_run in Hadd as (_ & _ & nodes & cids & _ & _ & ->).
    by apply JsSet_addAll_NoDup.
Qed.

Lemma eachLimit_addIndirect_fails (roots : list Buffer) (acc : JsSet.t) s
    (v : Buffer * World) :
  v ∈ visits roots (world s) →
  failed (dag_getRecursive v.1 v.2).1 →
  failed (eachLimit addIndirect roots acc s).1.
Proof.
  revert acc s. induction roots as [|mh roots IH]; intros acc s; simpl.
  - intros Hv. by apply elem_of_nil in Hv.
  - intros Hv Hfail. unfold mbind, Async_bind.
    destruct (addIndirect mh acc s) as [[acc1|e|e] s1] eqn:Hadd; [|done..].
    apply addIndirect_run in Hadd as (_ & Hworld & nodes & _ & Hclo & _).
    apply elem_of_cons in Hv as [-> | Hv].
    + unfold closureAt in Hclo. simpl in *. by rewrite Hclo in Hfail.
    + apply IH; [by rewrite Hworld | done].
Qed.

(** The list [getIndirectKeys] hands back has no key twice, also when a
    node is under several recursive pins; and the call fails as a whole,
    without a partial list, as soon as the closure of one recursive pin
    cannot be fetched. *)
Theorem getIndirectKeys_all_or_nothing s (roots : list Buffer) :
  recursiveKeys (this s) = Returns roots →
  (∀ ks s', getIndirectKeys s = (Ok ks, s') → NoDup ks) ∧
  (∀ v, v ∈ visits roots (world s) →
        failed (dag_getRecursive v.1 v.2).1 →
        failed (getIndirectKeys s).1).
Proof.
  intros Hroots. split.
  - intros ks s'. unfold getIndirectKeys. run. rewrite Hroots. simpl.
    destruct (eachLimit addIndirect roots JsSet.empty _)
      as [[acc|e|e] s1] eqn:Hloop; [|done..].
    intros [= <- <-]. apply (eachLimit_addIndirect_NoDup _ _ _ _ _ Hloop).
    apply NoDup_nil_2.
  - intros v Hv Hfail. unfold getIndirectKeys. run. rewrite Hroots. simpl.
    pose proof (eachLimit_addIndirect_fails roots JsSet.empty
                  (mkState (this s) (world s) (trace s ++ [Acquire ReadLock]))
                  v Hv Hfail) as Hloop.
    by destruct (eachLimit addIndirect roots JsSet.empty _)
      as [[acc|e|e] s1].
Qed.

End IndirectMore.

(** ** Flushing twice *)

Section FlushTwice.
Context {World Node CID Link : Type}.
Context `{C : !Collaborators World Node CID Link}.
Implicit Types (s : State World Link).

(** A second flush right after a successful one encodes neither set
    again: it finds both links cached, builds the same root node from
    them, and leaves the manager as the first flush left it. *)
Theorem flush_again_same_root s (root root' : Root Node) s1 s2 :
  _flushPins s = (Ok root, s1) →
  _flushPins s1 = (Ok root', s2) →
  node root' = node root ∧ this s2 = this s1.
Proof.
  intros H1 H2.
  apply flushPins_inversion in H1 as (dl & rl & Hcache & _ & _ & _ & _ & Hn & _).
  assert (_linkCache (this s1) !! "direct" = Some dl) as Hd.
  { rewrite Hcache, lookup_insert_ne by done. apply lookup_insert_eq. }
  assert (_linkCache (this s1) !! "recursive" = Some rl) as Hr.
  { rewrite Hcache. apply lookup_insert_eq. }
  destruct (flushPins_cached _ _ _ _ _ Hd Hr H2) as [Hn' Hthis].
  split; [congruence | done].
Qed.

End FlushTwice.

(** ** The lock *)

Section Locking.
Context {World Node CID Link : Type}.
Context `{C : !Collaborators World Node CID Link}.
Implicit Types (s : State World Link) (p : PinManager Link).

Local Abbreviation Async := (@Async World Link).
Local Abbreviation lockFree m := (@lockFree World Link _ m).

Lemma lockFree_same {A} (m : Async A) :
  (∀ s r s', m s = (r, s') → trace s' = trace s) → lockFree m.
Proof.
  intros Hm s r s' Hrun. exists []. split; [constructor|].
  rewrite (Hm _ _ _ Hrun). by rewrite app_nil_r.
Qed.

Lemma lockFree_ret {A} (a : A) : lockFree (mret a).
Proof. apply lockFree_same. by intros s r s' [= _ <-]. Qed.

Lemma lockFree_fail {A} (e : JsError) : lockFree (fail (A := A) e).
Proof. apply lockFree_same. by intros s r s' [= _ <-]. Qed.

Lemma lockFree_sync {A} (x : Sync A) : lockFree (sync x).
Proof.
  apply lockFree_same. intros s r s'. unfold sync.
  by destruct x; intros [= _ <-].
Qed.

Lemma lockFree_caught {A} (x : Sync A) : lockFree (caught x).
Proof.
  apply lockFree_same. intros s r s'. unfold caught.
  by destruct x; intros [= _ <-].
Qed.

Lemma lockFree_getThis : lockFree getThis.
Proof. apply lockFree_same. by intros s r s' [= _ <-]. Qed.

Lemma lockFree_setThis p : lockFree (setThis p).
Proof. apply lockFree_same. by intros s r s' [= _ <-]. Qed.

Lemma lockFree_observe {A} (f : World → A) : lockFree (observe f).
Proof. apply lockFree_same. by intros s r s' [= _ <-]. Qed.

Lemma lockFree_call {A} (f : World → Outcome A * World) : lockFree (call f).
Proof.
  apply lockFree_same. intros s r s'. unfold call.
  destruct (f (world s)). by intros [= _ <-].
Qed.

Lemma lockFree_log (msg : string) : lockFree (log msg).
Proof.
  intros s r s' [= _ <-]. exists [Log msg]. split; [|done].
  by repeat constructor.
Qed.

Lemma lockFree_then {A B} (m : Async A) (k : Async B) s r1 s1 r2 s2 :
  lockFree m → lockFree k → m s = (r1, s1) → k s1 = (r2, s2) →
  ∃ logs, Forall isLog logs ∧ trace s2 = trace s ++ logs.
Proof.
  intros Hm Hk H1 H2.
  destruct (Hm _ _ _ H1) as (l1 & Hl1 & Ht1).
  destruct (Hk _ _ _ H2) as (l2 & Hl2 & Ht2).
  exists (l1 ++ l2). split; [by apply Forall_app|].
  by rewrite Ht2, Ht1, app_assoc.
Qed.

Lemma lockFree_bind {A B} (m : Async A) (k : A → Async B) :
  lockFree m → (∀ a, lockFree (k a)) → lockFree (m ≫= k).
Proof.
  intros Hm Hk s r s'. unfold mbind, Async_bind.
  destruct (m s) as [[a|e|e] s1] eqn:E; intros Hr.
  - by apply (lockFree_then m (k a) s (Ok a) s1 r s').
  - injection Hr as _ <-. by apply (Hm _ _ _ E).
  - injection Hr as _ <-. by apply (Hm _ _ _ E).
Qed.

Lemma lockFree_andFinally {A B} (m : Async A) (k : JsError + A → Async B) :
  lockFree m → (∀ r, lockFree (k r)) → lockFree (andFinally m k).
Proof.
  intros Hm Hk s r s'. unfold andFinally.
  destruct (m s) as [[a|e|e] s1] eqn:E; intros Hr.
  - by apply (lockFree_then m (k (inr a)) s (Ok a) s1 r s').
  - by apply (lockFree_then m (k (inl e)) s (Err e) s1 r s').
  - injection Hr as _ <-. by apply (Hm _ _ _ E).
Qed.

Lemma lockFree_par {A B} (t1 : Async A) (t2 : Async B) :
  lockFree t1 → lockFree t2 → lockFree (par t1 t2).
Proof.
  intros H1 H2 s r s'. unfold par.
  destruct (t1 s) as [[a|e|e] s1] eqn:E1.
  - destruct (t2 s1) as [[b|e|e] s2] eqn:E2; intros [= _ <-];
      by apply (lockFree_then t1 t2 s _ s1 _ s2 H1 H2 E1 E2).
  - destruct (t2 s1) as [[b|e'|e'] s2] eqn:E2; intros [= _ <-];
      by apply (lockFree_then t1 t2 s _ s1 _ s2 H1 H2 E1 E2).
  - intros [= _ <-]. by apply (H1 _ _ _ E1).
Qed.

Lemma lockFree_mapAsync {A B} (g : A → Async B) (xs : list A) :
  (∀ x, lockFree (g x)) → lockFree (mapAsync g xs).
Proof.
  intros Hg. induction xs as [|x xs IH]; simpl; [apply lockFree_ret|].
  apply lockFree_bind; [apply Hg | intros y].
  apply lockFree_bind; [apply IH | intros ys]. apply lockFree_ret.
Qed.

Lemma lockFree_eachLimit {A S} (g : A → S → Async S) (xs : list A)
    (acc : S) :
  (∀ x a, lockFree (g x a)) → lockFree (eachLimit g xs acc).
Proof.
  intros Hg. revert acc. induction xs as [|x xs IH]; intros acc; simpl;
    [apply lockFree_ret|].
  apply lockFree_bind; [apply Hg | intros acc']. apply IH.
Qed.

Lemma lockFree_detectLimit {A} (test : A → Async bool) (xs : list A) :
  (∀ x, lockFree (test x)) → lockFree (detectLimit test xs).
Proof.
  intros Hg. induction xs as [|x xs IH]; simpl; [apply lockFree_ret|].
  apply lockFree_bind; [apply Hg | intros []];
    [apply lockFree_ret | apply IH].
Qed.

Lemma locked_oneSection {A} (m : LockMode) (fn : Async A) s :
  lockFree fn → oneSection m (locked m fn s) s.
Proof.
  intros Hfn. unfold oneSection, locked.
  destruct (fn _) as [r s1] eqn:E.
  destruct (Hfn _ _ _ E) as (logs & Hlogs & Ht). simpl in Ht.
  exists logs. split; [done|].
  destruct r as [a|e|e]; simpl; rewrite Ht, <- ?app_assoc; simpl;
    by rewrite ?app_nil_r.
Qed.

Ltac lock_free :=
  repeat first
    [ apply lockFree_ret | apply lockFree_fail | apply lockFree_sync
    | apply lockFree_caught | apply lockFree_getThis | apply lockFree_setThis
    | apply lockFree_observe | apply lockFree_call | apply lockFree_log
    | apply lockFree_par
    | apply lockFree_bind; [|intros ?]
    | apply lockFree_andFinally; [|intros [?|?]]
    | case_match ].

Lemma bind_sync_returns {A B} (a : A) (k : A → Async B) s :
  (sync (Returns a) ≫= k) s = k a s.
Proof. done. Qed.

Lemma bind_getThis {B} (k : PinManager Link → Async B) s :
  (getThis ≫= k) s = k (this s) s.
Proof. done. Qed.

Lemma lockFree_flushPins : lockFree _flushPins.
Proof.
  unfold _flushPins, flushDirectLink, flushRecursiveLink, flushEmptyNode.
  lock_free.
Qed.

(** Every operation that locks runs as one critical section: it takes
    its lock once, takes no lock while it holds it, and gives it back
    when it calls back, with a result or with an error.  The write lock
    is the lock of [_addPins], [rmPins], [load] and [getInternalBlocks],
    the read lock that of [getIndirectKeys] and of the search in
    [isPinnedWithType].  [rmPins] without keys and the first steps of
    [isPinnedWithType] take no lock and leave the trace as it was. *)
Theorem operations_lock_once s :
  (∀ keys ref pinType,
     oneSection WriteLock (_addPins keys ref pinType s) s) ∧
  (∀ keys recursive,
     keys ≠ [] → oneSection WriteLock (rmPins keys recursive s) s) ∧
  (∀ recursive, rmPins [] recursive s = (Ok (NothingNew []), s)) ∧
  oneSection WriteLock (load s) s ∧
  oneSection WriteLock (getInternalBlocks s) s ∧
  oneSection ReadLock (getIndirectKeys s) s ∧
  (∀ multihash type,
     trace (isPinnedWithType multihash type s).2 = trace s ∨
     oneSection ReadLock (isPinnedWithType multihash type s) s).
Proof.
  split_and!.
  - intros keys ref pinType. unfold _addPins, writeLock.
    apply locked_oneSection.
    apply lockFree_bind; [apply lockFree_getThis | intros p].
    destruct (filter _ keys); [apply lockFree_ret|].
    apply lockFree_bind; [apply lockFree_setThis | intros _].
    apply lockFree_bind; [apply lockFree_flushPins | intros root].
    apply lockFree_ret.
  - intros keys recursive Hne. unfold rmPins, writeLock.
    destruct keys as [|k ks]; [done|]. apply locked_oneSection.
    apply lockFree_bind; [apply lockFree_getThis | intros p].
    apply lockFree_bind; [apply lockFree_setThis | intros _].
    apply lockFree_bind; [apply lockFree_flushPins | intros root].
    apply lockFree_ret.
  - done.
  - unfold load, writeLock, loadRoot. apply locked_oneSection. lock_free.
  - unfold getInternalBlocks, writeLock. apply locked_oneSection. lock_free.
  - unfold getIndirectKeys, readLock. apply locked_oneSection.
    apply lockFree_bind; [apply lockFree_getThis | intros p].
    apply lockFree_bind; [apply lockFree_sync | intros roots].
    apply lockFree_bind; [|intros acc; apply lockFree_ret].
    apply lockFree_eachLimit. intros mh acc. unfold addIndirect.
    apply lockFree_bind; [apply lockFree_call | intros nodes].
    apply lockFree_bind; [|intros cids; lock_free].
    apply lockFree_mapAsync. intros n. lock_free.
  - intros multihash type. unfold isPinnedWithType.
    destruct (toB58String multihash) as [key|e]; [|by left].
    rewrite bind_sync_returns, bind_getThis.
    repeat (case_match; [by left|]).
    right. unfold readLock. apply locked_oneSection.
    apply lockFree_bind; [apply lockFree_getThis | intros p].
    apply lockFree_bind; [apply lockFree_sync | intros buffers].
    apply lockFree_bind; [apply lockFree_sync | intros cids].
    apply lockFree_bind; [|intros cid; apply lockFree_ret].
    apply lockFree_detectLimit. intros c. unfold isUnder. lock_free.
Qed.

End Locking.

(** * Runs in the in-memory world *)

Import InMemory.

(** The query for a directly pinned [zA]: the third lock-free step
    answers. *)
Lemma fast_paths_run :
  toB58String (FromString "zA") = Returns "zA" ∧
  isPinnedWithType (FromString "zA") "direct" (start pinsAB emptyWorld) =
    (Ok (mkStatus "zA" true (Some (ByType "direct"))),
     start pinsAB emptyWorld) ∧
  isPinnedWithType (FromString "zA") "recursive" (start pinsAB emptyWorld) =
    (Ok (mkStatus "zA" false None), start pinsAB emptyWorld).
Proof.
  destruct (isPinnedWithType_fast_paths (C := collaborators)
              (FromString "zA") "zA" (start pinsAB emptyWorld)
              ltac:(reflexivity))
    as (_ & Hmiss & Hhit & _).
  split_and!.
  - reflexivity.
  - apply Hhit; [left; reflexivity | left].
  - apply Hmiss. intros H. apply list_elem_of_singleton in H. discriminate H.
Defined.

(** Pinning what is pinned already changes nothing. *)
Lemma add_present_keys_run :
  addDirectPins ["zA"] (start pinsAB emptyWorld) =
    (Ok (NothingNew []), afterLock WriteLock (start pinsAB emptyWorld)) ∧
  addRecursivePins ["zB"] (start pinsAB emptyWorld) =
    (Ok (NothingNew []), afterLock WriteLock (start pinsAB emptyWorld)).
Proof.
  split.
  - apply (proj1 (add_present_keys_noop ["zA"] (start pinsAB emptyWorld))).
    intros k Hk. apply list_elem_of_singleton in Hk. rewrite Hk. left.
  - apply (proj2 (add_present_keys_noop ["zB"] (start pinsAB emptyWorld))).
    intros k Hk. apply list_elem_of_singleton in Hk. rewrite Hk. left.
Defined.

(** On a full disk the flush of pinning [zA] hands an error to its
    callback: the add hands it on, [zA] stays in the set, and the
    datastore has no root.  The flush of removing [zA] fails likewise:
    the remove hands the error on, and [zA] stays out. *)
Lemma failed_flush_run :
  addDirectPins ["zA"] (start constructor fullDisk) =
    (Err diskFullError, afterFailedAddA) ∧
  directPins (this afterFailedAddA) = ["zA"] ∧
  datastore_has PIN_DS_KEY (world afterFailedAddA) =
    (Ok false, world afterFailedAddA) ∧
  rmPins ["zA"] false (start pinsAB fullDisk) =
    (Err diskFullError, afterFailedRmA) ∧
  directPins (this afterFailedRmA) = [].
Proof.
  pose (sfA := (_flushPins
                  (flushing (afterAdd ["zA"] TheDirectPins "direct"
                               (this (start constructor fullDisk)))
                     (start constructor fullDisk))).2).
  pose (sfR := (_flushPins
                  (flushing (afterRm ["zA"] false
                               (this (start pinsAB fullDisk)))
                     (start pinsAB fullDisk))).2).
  assert (_flushPins
            (flushing (afterAdd ["zA"] TheDirectPins "direct"
                         (this (start constructor fullDisk)))
               (start constructor fullDisk)) =
          (Err diskFullError, sfA)) as Hadd
    by (vm_compute; reflexivity).
  assert (_flushPins
            (flushing (afterRm ["zA"] false (this (start pinsAB fullDisk)))
               (start pinsAB fullDisk)) =
          (Err diskFullError, sfR)) as Hrm
    by (vm_compute; reflexivity).
  destruct (failed_flush_leaves_mutation (C := collaborators)
              ["zA"] (start constructor fullDisk) diskFullError sfA)
    as (Hd & _ & _ & _).
  destruct (Hd ltac:(exists "zA"; split; [left | apply not_elem_of_nil])
               Hadd) as (Hrun & _ & _).
  destruct (failed_flush_leaves_mutation (C := collaborators)
              ["zA"] (start pinsAB fullDisk) diskFullError sfR)
    as (_ & _ & Hr & _).
  destruct (Hr ltac:(discriminate) Hrm) as (Hrun' & _ & _).
  split_and!.
  - rewrite Hrun. vm_compute. reflexivity.
  - vm_compute. reflexivity.
  - vm_compute. reflexivity.
  - rewrite Hrun'. vm_compute. reflexivity.
  - vm_compute. reflexivity.
Defined.

(** [bA] is pinned directly.  Asked for by its buffer, the string
    looked up is [zA], which is no member: not pinned.  Asked for by the
    string [bA], the string looked up is [bA]: pinned. *)
Lemma added_key_is_found_by_its_string_run :
  "bA" ∈ directPins
    (this (addDirectPins ["bA"] (start constructor emptyWorld)).2) ∧
  isPinnedWithType (FromBuffer (bytes "A")) "direct"
      (addDirectPins ["bA"] (start constructor emptyWorld)).2 =
    (Ok (mkStatus "zA" false None),
     (addDirectPins ["bA"] (start constructor emptyWorld)).2) ∧
  isPinnedWithType (FromString "bA") "direct"
      (addDirectPins ["bA"] (start constructor emptyWorld)).2 =
    (Ok (mkStatus "bA" true (Some (ByType "direct"))),
     (addDirectPins ["bA"] (start constructor emptyWorld)).2).
Proof.
  destruct (added_key_is_found_by_its_string (C := collaborators)
              ["bA"] (FromBuffer (bytes "A")) "zA"
              (start constructor emptyWorld)
              (addDirectPins ["bA"] (start constructor emptyWorld)).1
              (addDirectPins ["bA"] (start constructor emptyWorld)).2
              ltac:(reflexivity)) as [Hbuf _].
  destruct (Hbuf (surjective_pairing _)) as (Hset & _ & Hmiss).
  destruct (added_key_is_found_by_its_string (C := collaborators)
              ["bA"] (FromString "bA") "bA"
              (start constructor emptyWorld)
              (addDirectPins ["bA"] (start constructor emptyWorld)).1
              (addDirectPins ["bA"] (start constructor emptyWorld)).2
              ltac:(reflexivity)) as [Hstr _].
  destruct (Hstr (surjective_pairing _)) as (_ & Hhit & _).
  split_and!.
  - apply Hset. left. left.
  - apply Hmiss. split; [|apply not_elem_of_nil].
    intros H. apply list_elem_of_singleton in H. discriminate H.
  - apply Hhit. left. left.
Defined.

(** C10, the counterexample.  [bA] is not the canonical form of its
    buffer, which is [zA].  It is pinned directly under the string
    [bA]; the query for the same string [bA] looks up [bA], since a CID
    made from a string is written back in the base of that string, and
    answers pinned from its lock-free steps. *)
Lemma same_string_query_finds_added_key :
  ¬ canonical "bA" ∧
  "bA" ∈ directPins
    (this (addDirectPins ["bA"] (start constructor emptyWorld)).2) ∧
  toB58String (FromString "bA") = Returns "bA" ∧
  isPinnedWithType (FromString "bA") "direct"
      (addDirectPins ["bA"] (start constructor emptyWorld)).2 =
    (Ok (mkStatus "bA" true (Some (ByType "direct"))),
     (addDirectPins ["bA"] (start constructor emptyWorld)).2) ∧
  pinned <$> valueOf
    (isPinnedWithType (FromString "bA") "direct"
       (addDirectPins ["bA"] (start constructor emptyWorld)).2).1
    ≠ Some false.
Proof.
  split_and!.
  - intros (c & Hc & Hback). injection Hc as <-. discriminate Hback.
  - vm_compute. left.
  - reflexivity.
  - vm_compute. reflexivity.
  - vm_compute. discriminate.
Qed.



(** Loading from an empty repository into a new manager. *)
Lemma load_without_root_run :
  load (start constructor emptyWorld) =
    (Ok tt,
     mkState constructor emptyWorld
       [Acquire WriteLock; Log "No pins to load"; Release WriteLock]) ∧
  directPins (this (load (start constructor emptyWorld)).2) = JsSet.empty ∧
  recursivePins (this (load (start constructor emptyWorld)).2) = JsSet.empty.
Proof.
  destruct (load_without_root_keeps_manager
              (start constructor emptyWorld) emptyWorld)
    as [Hload Hempty].
  - vm_compute. reflexivity.
  - split; [exact Hload | apply Hempty; reflexivity].
Defined.

(** C8, the counterexample.  After pinning [zA] failed on a full disk
    the root key is absent and [zA] is in the direct set; [load] then
    succeeds, and the direct set is not empty afterwards. *)
Lemma load_without_root_not_empty :
  datastore_has PIN_DS_KEY (world afterFailedAddA) =
    (Ok false, world afterFailedAddA) ∧
  (load afterFailedAddA).1 = Ok tt ∧
  directPins (this (load afterFailedAddA).2) = ["zA"] ∧
  directPins (this (load afterFailedAddA).2) ≠ JsSet.empty.
Proof.
  split_and!; [vm_compute; reflexivity.. |].
  vm_compute. discriminate.
Qed.

(** With [a] and [x] both pinned recursively and [x] below [a]. *)
Lemma recursive_member_under_another_run :
  isPinnedWithType (FromString "zx") "all" (start pinsAX withBlocks) =
    (Ok (mkStatus "zx" true (Some (ByType "recursive"))),
     start pinsAX withBlocks) ∧
  ∃ c, c ∈ [ofText "a/x"; ofText "x"] ∧ under "zx" c withBlocks ∧
       isPinnedWithType (FromString "zx") "indirect"
           (start pinsAX withBlocks) =
         (Ok (mkStatus "zx" true (Some (ByRoot c))),
          afterLock ReadLock (start pinsAX withBlocks)).
Proof.
  apply (recursive_member_under_another
           (FromString "zx") "zx" (start pinsAX withBlocks)
           [bytes "a/x"; bytes "x"] [ofText "a/x"; ofText "x"] "a/x").
  - reflexivity.
  - right. left.
  - reflexivity.
  - reflexivity.
  - intros c Hc. apply elem_of_cons in Hc as [Hc | Hc].
    + rewrite Hc. exists nodeA, true. split; reflexivity.
    + apply list_elem_of_singleton in Hc. rewrite Hc.
      exists leafX, false. split; reflexivity.
  - left.
  - exists nodeA. split; reflexivity.
Defined.

(** C2, the counterexample.  [zx] is a member of the recursive set, and
    so is [za/x], whose node has [zx] among its descendants; the query
    for [zx] with type [indirect] answers pinned, not not-pinned. *)
Lemma indirect_query_of_recursive_member_is_pinned :
  "zx" ∈ recursivePins pinsAX ∧
  "za/x" ∈ recursivePins pinsAX ∧
  toB58String (FromString "zx") = Returns "zx" ∧
  under "zx" (ofText "a/x") withBlocks ∧
  (isPinnedWithType (FromString "zx") "indirect"
     (start pinsAX withBlocks)).1 =
    Ok (mkStatus "zx" true (Some (ByRoot (ofText "a/x")))) ∧
  pinned <$> valueOf
    (isPinnedWithType (FromString "zx") "indirect"
       (start pinsAX withBlocks)).1 ≠ Some false.
Proof.
  split_and!.
  - right. left.
  - left.
  - reflexivity.
  - exists nodeA. split; reflexivity.
  - vm_compute. reflexivity.
  - vm_compute. discriminate.
Qed.

(** C1, the failing run.  [zA] is pinned directly and removed again.
    The direct set is empty then, but the root that [rmPins] persisted
    was built from the link cached when [zA] was pinned, and the cache
    still holds that link. *)
Lemma rmPins_reuses_cached_links_run :
  directPins (this afterAddA) = ["zA"] ∧
  directPins (this afterRmA) = [] ∧
  rmPins ["zA"] false afterAddA = (Ok (Flushed rootA), afterRmA) ∧
  Links (node rootA) = [mkLink "direct" 1 "/A"; mkLink "recursive" 0 ""] ∧
  _linkCache (this afterRmA) !! "direct" = Some (mkLink "direct" 1 "/A").
Proof.
  assert (rmPins ["zA"] false afterAddA = (Ok (Flushed rootA), afterRmA))
    as Hrun by (vm_compute; reflexivity).
  destruct (rmPins_reuses_cached_links (C := collaborators)
              ["zA"] false afterAddA rootA afterRmA
              (mkLink "direct" 1 "/A") (mkLink "recursive" 0 "")
              ltac:(vm_compute; reflexivity)
              ltac:(vm_compute; reflexivity) Hrun)
    as (Hd & _ & Hroot & Hcache).
  split_and!.
  - vm_compute. reflexivity.
  - rewrite Hd. vm_compute. reflexivity.
  - exact Hrun.
  - reflexivity.
  - rewrite Hcache. vm_compute. reflexivity.
Defined.

(** The same run, seen from a restart: a new manager that loads what
    [rmPins] persisted has [zA] pinned again. *)
Lemma removed_pin_is_back_after_load :
  directPins (this afterRmA) = [] ∧
  (load (start constructor (world afterRmA))).1 = Ok tt ∧
  directPins (this (load (start constructor (world afterRmA))).2) = ["zA"].
Proof. split_and!; vm_compute; reflexivity. Qed.

(** ** The in-memory stores keep what was written *)

Lemma text_bytes (t : string) : text (bytes t) = t.
Proof. apply String.string_of_list_byte_of_string. Qed.

Lemma bytes_text (b : Buffer) : bytes (text b) = b.
Proof. apply String.list_byte_of_string_of_list_byte. Qed.

Lemma getBlock_putBlock_own (n : Node) w :
  getBlock (ofText (address n)) (putBlock n w) = Some n.
Proof. unfold getBlock, putBlock. simpl. by rewrite String.eqb_refl. Qed.

Lemma getBlock_putBlock (n0 : Node) (c : CID) (n : Node) w :
  taken n0 w = false →
  getBlock c w = Some n → getBlock c (putBlock n0 w) = Some n.
Proof.
  intros Htaken Hget. unfold getBlock, putBlock. simpl.
  destruct (String.eqb (address n0) (content c)) eqn:E; [|exact Hget].
  apply String.eqb_eq in E. simpl. unfold taken in Htaken.
  change (getBlock (ofText (content c)) w = Some n) in Hget.
  rewrite <- E in Hget. rewrite Hget in Htaken.
  apply negb_false_iff, bool_decide_eq_true in Htaken. by subst.
Qed.

(** A block that is there stays there, and stays the same. *)
Lemma later_getBlock w w' (c : CID) (n : Node) :
  later w w' → getBlock c w = Some n → getBlock c w' = Some n.
Proof.
  induction 1 as [w | keys label w r wa w' Hstep _ IH
                  | n0 w r wa w' Hstep _ IH | w r wa w' Hstep _ IH
                  | k v w r wa w' Hstep _ IH]; intros Hget; [done | ..];
    apply IH; simpl in Hstep.
  - unfold storeSet in Hstep. destruct (taken _ w) eqn:Ht;
      injection Hstep as _ <-; [done | by apply getBlock_putBlock].
  - unfold putNode in Hstep. destruct (taken _ w) eqn:Ht;
      injection Hstep as _ <-; [done | by apply getBlock_putBlock].
  - unfold openRepo in Hstep. by injection Hstep as _ <-.
  - unfold putKey in Hstep. destruct (diskFull w);
      by injection Hstep as _ <-.
Qed.

Lemma inMemory_storesGiveBack : storesGiveBack.
Proof.
  split_and!.
  - intros n w c w1 w2 Hput Hlater. simpl in Hput. unfold putNode in Hput.
    destruct (taken n w) eqn:Ht; [done|]. injection Hput as <- <-.
    exists (ofText (address n)). split.
    + simpl. by rewrite text_bytes.
    + simpl. unfold getNode.
      by rewrite (later_getBlock _ _ _ n Hlater (getBlock_putBlock_own n w)).
  - intros w w1 Hopen. simpl in Hopen. unfold openRepo in Hopen.
    by injection Hopen as <-.
  - intros v w w1 Hput. simpl in Hput. unfold putKey in Hput.
    destruct (diskFull w); [done|]. by injection Hput as <-.
Qed.

Lemma storeSet_Ok (keys : list Buffer) (label : string) w (nd : Node)
    (cd : CID) w' :
  storeSet keys label w = (Ok (nd, cd), w') →
  Links nd = (λ b, mkLink "" 0 (ofText (text b))) <$> keys ∧
  getBlock cd w' = Some nd.
Proof.
  unfold storeSet. destruct (taken _ w); [done|].
  intros [= <- <- <-]. split; [done | apply getBlock_putBlock_own].
Qed.

Lemma loadSet_links (keys : list Buffer) :
  (λ l, bytes (content (Hash l))) <$>
    ((λ b, mkLink "" 0 (ofText (text b))) <$> keys) = keys.
Proof.
  induction keys as [|b keys IH]; [done|].
  simpl. rewrite bytes_text. f_equal. exact IH.
Qed.

Lemma inMemory_loadSetInvertsStoreSet : loadSetInvertsStoreSet.
Proof.
  intros dkeys rkeys dl rl wd wd' wr wr' root w
    (nd & cd & Hsd & Hdl) (nr & cr & Hsr & Hrl) Hroot Hld Hlr.
  simpl in *. injection Hdl as <-. injection Hrl as <-.
  injection Hroot as <-.
  apply storeSet_Ok in Hsd as [Hdlinks Hdget].
  apply storeSet_Ok in Hsr as [Hrlinks Hrget].
  exists rkeys, dkeys. unfold loadSet. simpl.
  rewrite (later_getBlock _ _ _ _ Hlr Hrget).
  rewrite (later_getBlock _ _ _ _ Hld Hdget).
  by rewrite Hdlinks, Hrlinks, !loadSet_links.
Qed.

(** The state after [zB] was pinned directly after [zA]: both links
    are cached then, the direct one made for [zA] and [zB], and the
    recursive one made for the empty set when [zA] was pinned.  A flush
    from this state, then a load. *)
Lemma flush_then_load_run :
  _linkCache (this (addDirectPins ["zB"] afterAddA).2) !! "direct" =
    Some (mkLink "direct" 2 "/A/B") ∧
  _linkCache (this (addDirectPins ["zB"] afterAddA).2) !! "recursive" =
    Some (mkLink "recursive" 0 "") ∧
  _flushPins (addDirectPins ["zB"] afterAddA).2 =
    (Ok rootAthenB, (_flushPins (addDirectPins ["zB"] afterAddA).2).2) ∧
  (load (start constructor
           (world (_flushPins (addDirectPins ["zB"] afterAddA).2).2))).1
    = Ok tt ∧
  directPins
    (this (load (start constructor
             (world (_flushPins (addDirectPins ["zB"] afterAddA).2).2))).2)
    = ["zA"; "zB"] ∧
  recursivePins
    (this (load (start constructor
             (world (_flushPins (addDirectPins ["zB"] afterAddA).2).2))).2)
    = [].
Proof.
  assert (_flushPins (addDirectPins ["zB"] afterAddA).2 =
            (Ok rootAthenB, (_flushPins (addDirectPins ["zB"] afterAddA).2).2))
    as Hrun by (vm_compute; reflexivity).
  destruct (flush_then_load_roundtrip (C := collaborators)
              (addDirectPins ["zB"] afterAddA).2 rootAthenB
              (_flushPins (addDirectPins ["zB"] afterAddA).2).2
              [bytes "A"; bytes "B"] [] []
              inMemory_storesGiveBack inMemory_loadSetInvertsStoreSet)
    as (Hok & _ & _).
  - intros k Hk. apply elem_of_cons in Hk as [Hk | Hk].
    + rewrite Hk. exists (ofText "A"). split; reflexivity.
    + apply list_elem_of_singleton in Hk. rewrite Hk.
      exists (ofText "B"). split; reflexivity.
  - intros k Hk. by apply elem_of_nil in Hk.
  - reflexivity.
  - reflexivity.
  - intros l Hl. vm_compute in Hl. injection Hl as <-.
    exists (world afterAddA),
      (storeSet [bytes "A"; bytes "B"] "direct" (world afterAddA)).2.
    split.
    + exists (mkNode [] [mkLink "" 0 "A"; mkLink "" 0 "B"]), (ofText "/A/B").
      split; reflexivity.
    + eapply (later_dag_put (mkNode [] [])); [reflexivity|].
      eapply (later_dag_put (node rootAthenB)); [reflexivity|].
      eapply (later_datastore_put PIN_DS_KEY (multihash rootAthenB));
        [reflexivity|].
      vm_compute. apply later_now.
  - intros l Hl. vm_compute in Hl. injection Hl as <-.
    exists (storeSet [bytes "A"] "direct" emptyWorld).2,
      (storeSet [] "recursive"
         (storeSet [bytes "A"] "direct" emptyWorld).2).2.
    split.
    + exists (mkNode [] []), (ofText ""). split; reflexivity.
    + eapply (later_dag_put (mkNode [] [])); [reflexivity|].
      eapply (later_dag_put (node rootA)); [reflexivity|].
      eapply (later_datastore_put PIN_DS_KEY (multihash rootA));
        [reflexivity|].
      eapply (later_storeSet [bytes "A"; bytes "B"] "direct");
        [reflexivity|].
      eapply (later_dag_put (mkNode [] [])); [reflexivity|].
      eapply (later_dag_put (node rootAthenB)); [reflexivity|].
      eapply (later_datastore_put PIN_DS_KEY (multihash rootAthenB));
        [reflexivity|].
      vm_compute. apply later_now.
  - exact Hrun.
  - split_and!; [vm_compute; reflexivity.. | exact Hrun | exact Hok | |];
      vm_compute; reflexivity.
Defined.

(** C5, the counterexample.  The direct set holds the one key [bA], a
    spelling [new CID] reads and the canonical form of which is [zA]; the
    cache is empty.  The stores give back what was written and [loadSet]
    inverts [storeSet].  The flush succeeds, and [load] on a new manager
    succeeds: its direct set holds [zA], and not [bA]. *)
Lemma flush_then_load_changes_spelling :
  storesGiveBack ∧
  loadSetInvertsStoreSet ∧
  directPins pinsOtherBase = ["bA"] ∧
  _flushPins (start pinsOtherBase emptyWorld) =
    (Ok rootA, (_flushPins (start pinsOtherBase emptyWorld)).2) ∧
  (load (start constructor
           (world (_flushPins (start pinsOtherBase emptyWorld)).2))).1
    = Ok tt ∧
  directPins
    (this (load (start constructor
             (world (_flushPins (start pinsOtherBase emptyWorld)).2))).2)
    = ["zA"] ∧
  ¬ (∀ k, k ∈ directPins
            (this (load (start constructor
               (world (_flushPins (start pinsOtherBase emptyWorld)).2))).2)
          ↔ k ∈ directPins pinsOtherBase).
Proof.
  assert (directPins
    (this (load (start constructor
             (world (_flushPins (start pinsOtherBase emptyWorld)).2))).2)
    = ["zA"]) as Hload by (vm_compute; reflexivity).
  split_and!; try (vm_compute; reflexivity).
  - apply inMemory_storesGiveBack.
  - apply inMemory_loadSetInvertsStoreSet.
  - rewrite Hload. intros Hsame. destruct (Hsame "zA") as [Hin _].
    specialize (Hin ltac:(left)). simpl in Hin.
    apply list_elem_of_singleton in Hin. discriminate Hin.
Qed.

(** ** More runs in the in-memory world *)

Lemma not_valid_type (v : JsValue) :
  (∀ s, v ≠ JsString s) → v ∉ validPinTypes.
Proof.
  intros Hv Hin. unfold validPinTypes in Hin.
  repeat (apply elem_of_cons in Hin as [Hin | Hin]; [by apply Hv in Hin|]).
  by apply elem_of_nil in Hin.
Qed.

(** A valid name, a name in the wrong case, no value, and an object
    whose string conversion throws. *)
Lemma checkPinType_cases_run :
  checkPinType (JsString "direct") = Returns None ∧
  checkPinType (JsString "Direct") =
    Returns (Some (mkError
      "Invalid type 'Direct', must be one of {direct, indirect, recursive, all}"
      (Some "ERR_INVALID_PIN_TYPE"))) ∧
  checkPinType JsUndefined =
    Returns (Some (mkError
      "Invalid type 'undefined', must be one of {direct, indirect, recursive, all}"
      (Some "ERR_INVALID_PIN_TYPE"))) ∧
  checkPinType (JsObject (Throws (Error "boom"))) = Throws (Error "boom").
Proof.
  split_and!.
  - apply (proj1 (checkPinType_cases (JsString "direct"))). left.
  - destruct (checkPinType_cases (JsString "Direct")) as (_ & H & _).
    apply (H ltac:(intros Hin; unfold validPinTypes in Hin;
                   repeat (apply elem_of_cons in Hin as [Hin | Hin];
                           [discriminate Hin|]);
                   by apply elem_of_nil in Hin) "Direct" eq_refl).
  - destruct (checkPinType_cases JsUndefined) as (_ & H & _).
    apply (H (not_valid_type JsUndefined ltac:(discriminate))
             "undefined" eq_refl).
  - destruct (checkPinType_cases (JsObject (Throws (Error "boom"))))
      as (_ & _ & H).
    apply (H (not_valid_type (JsObject (Throws (Error "boom")))
                ltac:(discriminate)) _ eq_refl).
Defined.

Lemma flushPins_postcondition_run :
  ∃ dl rl,
    _linkCache (this (_flushPins (start pinsAB emptyWorld)).2) =
      <["recursive" := rl]> (<["direct" := dl]> ∅) ∧
    DAGNode_create [] [dl; rl] = Returns (node rootAB) ∧
    directPins (this (_flushPins (start pinsAB emptyWorld)).2) = ["zA"].
Proof.
  assert (_flushPins (start pinsAB emptyWorld) =
            (Ok rootAB, (_flushPins (start pinsAB emptyWorld)).2)) as Hrun
    by (vm_compute; reflexivity).
  destruct (flushPins_postcondition (C := collaborators)
              (start pinsAB emptyWorld) rootAB
              (_flushPins (start pinsAB emptyWorld)).2 Hrun)
    as (dl & rl & Hcache & _ & _ & _ & _ & Hnode & _ & _ & Hd & _).
  exists dl, rl. split_and!; [exact Hcache | exact Hnode | exact Hd].
Defined.

Lemma addPins_effect_run :
  NoDup (directPins (this (addDirectPins ["zC"; "zA"; "zC"]
                             (start pinsAB emptyWorld)).2)) ∧
  recursivePins (this (addDirectPins ["zC"; "zA"; "zC"]
                         (start pinsAB emptyWorld)).2) = ["zB"].
Proof.
  destruct (addPins_effect (C := collaborators) ["zC"; "zA"; "zC"]
              TheDirectPins "direct" (start pinsAB emptyWorld))
    as (_ & Hother & Hnd).
  split.
  - apply Hnd. apply NoDup_singleton.
  - apply (Hother TheRecursivePins). discriminate.
Defined.

(** Removing the direct pin [zA] with [recursive] true: it is not a
    recursive pin, so it is taken out of the direct set. *)
Lemma rmPins_effect_run :
  ("zA" ∉ directPins
            (this (rmPins ["zA"] true (start pinsAB emptyWorld)).2)) ∧
  recursivePins (this (rmPins ["zA"] true (start pinsAB emptyWorld)).2) =
    ["zB"].
Proof.
  destruct (rmPins_effect (C := collaborators) ["zA"]
              (start pinsAB emptyWorld)) as (_ & _ & _ & _ & Hd).
  split; [|vm_compute; reflexivity].
  intros Hin. apply (Hd (NoDup_singleton _)) in Hin as [_ Hnot].
  apply Hnot. split; [left|].
  intros Hrec. apply list_elem_of_singleton in Hrec. discriminate Hrec.
Defined.

(** Pinning [zB] directly after [zA]: the recursive link cached by the
    first flush is used again. *)
Lemma add_reuses_other_link_run :
  addDirectPins ["zB"] afterAddA =
    (Ok (Flushed rootAthenB), (addDirectPins ["zB"] afterAddA).2) ∧
  _linkCache (this (addDirectPins ["zB"] afterAddA).2) !! "recursive" =
    Some (mkLink "recursive" 0 "").
Proof.
  assert (addDirectPins ["zB"] afterAddA =
            (Ok (Flushed rootAthenB), (addDirectPins ["zB"] afterAddA).2))
    as Hrun by (vm_compute; reflexivity).
  split; [exact Hrun|].
  destruct (add_reuses_other_link (C := collaborators) ["zB"] afterAddA
              rootAthenB (addDirectPins ["zB"] afterAddA).2) as [H _].
  apply (H (mkLink "recursive" 0 "") ltac:(vm_compute; reflexivity) Hrun).
Defined.

(** A manager whose direct set holds a string that is no CID. *)
Lemma flush_throws_on_unparseable_key_run :
  ∃ e, _flushPins (start (mkPinManager ["garbage"] [] ∅) emptyWorld) =
         (Thrown e, start (mkPinManager ["garbage"] [] ∅) emptyWorld).
Proof.
  apply (proj1 (flush_throws_on_unparseable_key (C := collaborators)
                  "garbage" (start (mkPinManager ["garbage"] [] ∅) emptyWorld)
                  (Error "Invalid CID") ltac:(reflexivity))).
  - left.
  - reflexivity.
Defined.

Lemma getInternalBlocks_without_root_run :
  getInternalBlocks (start constructor emptyWorld) =
    (Ok [],
     mkState constructor emptyWorld
       [Acquire WriteLock; Log "No pinned blocks"; Release WriteLock]).
Proof.
  apply (getInternalBlocks_without_root (C := collaborators)
           (start constructor emptyWorld) InMemory.notFound emptyWorld).
  - reflexivity.
  - reflexivity.
Defined.

(** After [zA] was pinned: the two set nodes, then the root. *)
Lemma getInternalBlocks_appends_root_run :
  getInternalBlocks (start constructor (world afterAddA)) =
    (Ok ([ofText "/A"; ofText ""] ++ [ofText "//A/"]),
     mkState constructor (world afterAddA)
       [Acquire WriteLock; Release WriteLock]).
Proof.
  apply (getInternalBlocks_appends_root (C := collaborators)
           (start constructor (world afterAddA)) (bytes "//A/")
           (world afterAddA) "//A/" (node rootA) (world afterAddA)
           [ofText "/A"; ofText ""] (world afterAddA));
    vm_compute; reflexivity.
Defined.

(** A manager that held other pins loads what the pinning of [zA]
    wrote. *)
Lemma load_replaces_sets_run :
  directPins pinsAX = [] ∧ recursivePins pinsAX = ["za/x"; "zx"] ∧
  (load (start pinsAX (world afterAddA))).1 = Ok tt ∧
  directPins (this (load (start pinsAX (world afterAddA))).2) = ["zA"] ∧
  recursivePins (this (load (start pinsAX (world afterAddA))).2) = [].
Proof.
  destruct (load_replaces_sets (C := collaborators)
              (start pinsAX (world afterAddA)) (node rootA) [] [bytes "A"]
              (world afterAddA) (world afterAddA) ["zA"] [])
    as (Hload & _ & _); try (vm_compute; reflexivity).
  rewrite Hload. split_and!; reflexivity.
Defined.


Lemma isPinnedWithType_in_both_sets_run :
  isPinnedWithType (FromString "zA") "all" (start pinsBoth emptyWorld) =
    (Ok (mkStatus "zA" true (Some (ByType "recursive"))),
     start pinsBoth emptyWorld) ∧
  isPinnedWithType (FromString "zA") "recursive" (start pinsBoth emptyWorld) =
    (Ok (mkStatus "zA" true (Some (ByType "recursive"))),
     start pinsBoth emptyWorld) ∧
  isPinnedWithType (FromString "zA") "direct" (start pinsBoth emptyWorld) =
    (Ok (mkStatus "zA" true (Some (ByType "direct"))),
     start pinsBoth emptyWorld).
Proof.
  apply (isPinnedWithType_in_both_sets (C := collaborators)
           (FromString "zA") "zA" (start pinsBoth emptyWorld)).
  - reflexivity.
  - left.
  - left.
Defined.

Lemma isPinnedWithType_without_recursive_pins_run :
  ∃ st s',
    isPinnedWithType (FromString "zA") "indirect"
        (start pinsOnlyA emptyWorld) = (Ok st, s') ∧
    world s' = world (start pinsOnlyA emptyWorld) ∧
    (pinned st = true ↔
     ("indirect" = "direct" ∨ "indirect" = "all") ∧
     "zA" ∈ directPins (this (start pinsOnlyA emptyWorld))).
Proof.
  apply (isPinnedWithType_without_recursive_pins (C := collaborators)
           (FromString "zA") "indirect" "zA" (start pinsOnlyA emptyWorld));
    reflexivity.
Defined.

Lemma flush_again_same_root_run :
  _flushPins (_flushPins (start pinsAB emptyWorld)).2 =
    (Ok rootAB, (_flushPins (_flushPins (start pinsAB emptyWorld)).2).2) ∧
  node rootAB = node rootAB ∧
  this (_flushPins (_flushPins (start pinsAB emptyWorld)).2).2 =
    this (_flushPins (start pinsAB emptyWorld)).2.
Proof.
  assert (_flushPins (_flushPins (start pinsAB emptyWorld)).2 =
    (Ok rootAB, (_flushPins (_flushPins (start pinsAB emptyWorld)).2).2))
    as Hrun by (vm_compute; reflexivity).
  assert (_flushPins (start pinsAB emptyWorld) =
            (Ok rootAB, (_flushPins (start pinsAB emptyWorld)).2)) as Hfirst
    by (vm_compute; reflexivity).
  split; [exact Hrun|].
  apply (flush_again_same_root (C := collaborators)
           (start pinsAB emptyWorld) rootAB rootAB
           (_flushPins (start pinsAB emptyWorld)).2
           (_flushPins (_flushPins (start pinsAB emptyWorld)).2).2 Hfirst).
  exact Hrun.
Defined.

(** Removing [zA]: the trace of the run is the write lock taken, log
    lines, and the write lock given back. *)
Lemma operations_lock_once_run :
  oneSection WriteLock (rmPins ["zA"] true (start pinsAB emptyWorld))
    (start pinsAB emptyWorld).
Proof.
  destruct (operations_lock_once (C := collaborators)
              (start pinsAB emptyWorld)) as (_ & Hrm & _).
  apply (Hrm ["zA"] true). discriminate.
Defined.

(** Pinning [zA] again after the add that failed on a full disk. *)
Lemma addPins_again_is_noop_run :
  addDirectPins ["zA"] (start constructor fullDisk) =
    (Err diskFullError, afterFailedAddA) ∧
  addDirectPins ["zA"] afterFailedAddA =
    (Ok (NothingNew []), afterLock WriteLock afterFailedAddA).
Proof.
  split; [vm_compute; reflexivity|].
  apply (addPins_again_is_noop (C := collaborators)
           ["zA"] TheDirectPins "direct" "direct"
           (start constructor fullDisk)).
  exact I.
Defined.

(** Pinning [zB] directly beside [zA], and removing it again. *)
Lemma add_then_rm_run :
  "zA" ∈ directPins
           (this (rmPins ["zB"] false
                    (addDirectPins ["zB"] (start pinsAB emptyWorld)).2).2) ∧
  "zB" ∉ directPins
           (this (rmPins ["zB"] false
                    (addDirectPins ["zB"] (start pinsAB emptyWorld)).2).2).
Proof.
  pose proof (proj1 (add_then_rm (C := collaborators)
                       ["zB"] (start pinsAB emptyWorld)) I) as H.
  split.
  - apply H. split; [left|].
    intros Hin. apply list_elem_of_singleton in Hin. discriminate Hin.
  - intros Hin. apply H in Hin as [_ Hout]. apply Hout. left.
Defined.

(** * Runs in the scripted world *)

Module ScriptedRuns.
Import Scripted.

(** The datastore fails; the DAG has lost the root, which is not taken
    for an empty pinner; the codec fails. *)
Lemma getInternalBlocks_wraps_errors_run :
  (getInternalBlocks (start constructor badDatastore)).1 =
    Err (mkError
      "Could not get pin sets root from datastore: EIO: i/o error" None) ∧
  (getInternalBlocks (start constructor lostRoot)).1 =
    Err (mkError "Could not get pin sets from store: Not Found" None) ∧
  (getInternalBlocks (start constructor badCodec)).1 =
    Err (mkError "Could not get pinner internal cids: EIO: i/o error" None).
Proof.
  split_and!.
  - destruct (getInternalBlocks_wraps_errors (C := collaborators)
                (start constructor badDatastore) ioError) as (H & _ & _).
    apply (H badDatastore); [reflexivity | discriminate].
  - destruct (getInternalBlocks_wraps_errors (C := collaborators)
                (start constructor lostRoot) notFound) as (_ & H & _).
    apply (H x41 lostRoot x41 lostRoot); reflexivity.
  - destruct (getInternalBlocks_wraps_errors (C := collaborators)
                (start constructor badCodec) ioError) as (_ & _ & H).
    apply (H x41 badCodec x41 tt badCodec badCodec); reflexivity.
Defined.

(** A recursive key that is no CID: the direct set is already the
    loaded one.  A direct key that is no CID: nothing is replaced. *)
Lemma load_throws_between_sets_run :
  (load (start constructor badRecursiveKey)).1 =
    Thrown (Error "Invalid CID") ∧
  directPins (this (load (start constructor badRecursiveKey)).2) =
    JsSet.ofList ["A"] ∧
  recursivePins (this (load (start constructor badRecursiveKey)).2) = [] ∧
  (load (start constructor badDirectKey)).1 = Thrown (Error "Invalid CID") ∧
  this (load (start constructor badDirectKey)).2 = constructor.
Proof.
  destruct (load_throws_between_sets (C := collaborators)
              (start constructor badRecursiveKey) tt [[]] [x41]
              badRecursiveKey badRecursiveKey (Error "Invalid CID"))
    as [H _]; try reflexivity.
  destruct (H ["A"]) as (H1 & H2 & H3); try reflexivity.
  destruct (load_throws_between_sets (C := collaborators)
              (start constructor badDirectKey) tt [x42] [[]]
              badDirectKey badDirectKey (Error "Invalid CID"))
    as [_ H']; try reflexivity.
  destruct H' as [H4 H5]; [reflexivity|].
  split_and!; [exact H1 | exact H2 | exact H3 | exact H4 | exact H5].
Defined.

(** The root is lost; the datastore fails with the message [load] looks
    for; a set cannot be decoded. *)
Lemma load_failures_keep_manager_run :
  (load (start constructor lostRoot)).1 = Err notFound ∧
  (load (start constructor oddError)).1 = Ok tt ∧
  failed (load (start constructor badCodec)).1 ∧
  this (load (start constructor badCodec)).2 = constructor.
Proof.
  destruct (load_failures_keep_manager (C := collaborators)
              (start constructor lostRoot)) as [H1 _].
  destruct (H1 notFound) as (_ & _ & Hlost); [reflexivity|].
  destruct (load_failures_keep_manager (C := collaborators)
              (start constructor oddError)) as [H2 _].
  destruct (H2 (Error "No pins to load")) as (_ & Hodd & _); [reflexivity|].
  destruct (load_failures_keep_manager (C := collaborators)
              (start constructor badCodec)) as [_ H3].
  destruct (H3 tt (Err ioError) badCodec (Ok [x41]) badCodec)
    as [Hfail Hthis]; [reflexivity | reflexivity | reflexivity | |].
  { left. exact I. }
  split_and!; [apply Hlost; discriminate | apply Hodd; reflexivity
              | exact Hfail | exact Hthis].
Defined.

(** Two recursive pins over the same node give its key once; when the
    closure of the second pin cannot be fetched, the call fails. *)
Lemma getIndirectKeys_all_or_nothing_run :
  (getIndirectKeys
     (start (mkPinManager [] ["A"; "B"] ∅) allWell)).1 = Ok [""] ∧
  NoDup [""] ∧
  failed (getIndirectKeys
            (start (mkPinManager [] ["A"; "B"] ∅) lostClosure)).1.
Proof.
  assert (getIndirectKeys (start (mkPinManager [] ["A"; "B"] ∅) allWell) =
            (Ok [""],
             (getIndirectKeys
                (start (mkPinManager [] ["A"; "B"] ∅) allWell)).2)) as Hrun
    by (vm_compute; reflexivity).
  destruct (getIndirectKeys_all_or_nothing (C := collaborators)
              (start (mkPinManager [] ["A"; "B"] ∅) allWell) [x41; x42])
    as [Hnd _]; [reflexivity|].
  destruct (getIndirectKeys_all_or_nothing (C := collaborators)
              (start (mkPinManager [] ["A"; "B"] ∅) lostClosure) [x41; x42])
    as [_ Hfail]; [reflexivity|].
  split_and!.
  - rewrite Hrun. reflexivity.
  - apply (Hnd _ _ Hrun).
  - apply (Hfail (x42, lostClosure)); [right; left | exact I].
Defined.

End ScriptedRuns.
